(** * MDAnalysis.coordinates.base: Timestep and IObase

    A shallow embedding of [src/MDAnalysis/coordinates/base.py].

    - Python object references to numpy buffers are locations in an
      explicit store; an [ndarray] is a strided window on one buffer, so a
      view and its parent share a location and a copy gets a new one.
    - Code that allocates, mutates in place or raises runs in the monad
      [M], a state monad over the store with Python's exceptions.
    - float32 values are modelled by exact rationals ([Qc]): copying,
      zero filling and reordering are exact either way, and the scaling
      done by [IObase] is analysed over exact arithmetic.
    - Strides count elements, not bytes.
    - [Reader] and [Writer] only delegate to primitives that a concrete
      trajectory format supplies; they are not modelled. *)

From Stdlib Require Import ZArith QArith Qcanon.
From stdpp Require Import gmap strings list fin_maps numbers.

Open Scope Z_scope.

(** ** Store, exceptions and the monad *)

Abbreviation loc := positive.
Abbreviation heap := (gmap loc (list Qc)).

(** The Python exceptions the module can raise. [BadMemory] is not a Python
    exception: it marks an access outside a buffer, which numpy's own
    constructors never produce. *)
Inductive exn :=
  | ValueError | IndexError | TypeError | KeyError | AttributeError
  | BadMemory.

Definition M (A : Type) : Type := heap -> exn + (A * heap).

Definition ret {A} (a : A) : M A := fun h => inr (a, h).
Definition raise {A} (e : exn) : M A := fun _ => inl e.
Definition bind {A B} (m : M A) (k : A -> M B) : M B :=
  fun h => match m h with
           | inl e => inl e
           | inr (a, h') => k a h'
           end.
Definition lift {A} (e : exn) (o : option A) : M A :=
  match o with Some a => ret a | None => raise e end.

Notation "'do' x <- m ; k" := (bind m (fun x => k))
  (at level 10, x name, m at level 100, k at level 200).
Notation "'do' ' p <- m ; k" := (bind m (fun 'p => k))
  (at level 10, p pattern, m at level 100, k at level 200).
Notation "'exec' m ; k" := (bind m (fun _ => k))
  (at level 10, m at level 100, k at level 200).

Fixpoint traverse {A B} (f : A -> M B) (l : list A) : M (list B) :=
  match l with
  | [] => ret []
  | x :: l' => do y <- f x; do ys <- traverse f l'; ret (y :: ys)
  end.

(** ** numpy arrays *)

Record ndarray := mk_ndarray {
  data : loc;            (* the buffer the array looks into *)
  offset : Z;            (* position of element (0,...,0) in the buffer *)
  shape : list nat;
  strides : list Z       (* in elements *)
}.

Inductive order := C_order | F_order.

Definition size (shp : list nat) : nat := foldr Nat.mul 1%nat shp.

(** Multi-indices of a shape, in the order in which a contiguous buffer of
    that memory order stores them. *)
Fixpoint indices_C (shp : list nat) : list (list nat) :=
  match shp with
  | [] => [[]]
  | d :: rest => i ← seq 0 d; (cons i) <$> indices_C rest
  end.

Fixpoint indices_F (shp : list nat) : list (list nat) :=
  match shp with
  | [] => [[]]
  | d :: rest => idx ← indices_F rest; (fun i => i :: idx) <$> seq 0 d
  end.

Definition indices (o : order) : list nat -> list (list nat) :=
  match o with C_order => indices_C | F_order => indices_F end.

(** Strides of a freshly allocated array; a dimension of extent 0 counts as
    1, as in numpy. *)
Fixpoint strides_C (shp : list nat) : list Z :=
  match shp with
  | [] => []
  | d :: rest => Z.of_nat (size (Nat.max 1 <$> rest)) :: strides_C rest
  end.

Fixpoint strides_F_from (acc : Z) (shp : list nat) : list Z :=
  match shp with
  | [] => []
  | d :: rest => acc :: strides_F_from (acc * Z.of_nat (Nat.max 1 d)) rest
  end.

Definition strides_F : list nat -> list Z := strides_F_from 1.

Definition contiguous_strides (o : order) : list nat -> list Z :=
  match o with C_order => strides_C | F_order => strides_F end.

Fixpoint dot (idx : list nat) (st : list Z) : Z :=
  match idx, st with
  | i :: idx', s :: st' => Z.of_nat i * s + dot idx' st'
  | _, _ => 0
  end.

Definition address (a : ndarray) (idx : list nat) : Z :=
  offset a + dot idx (strides a).

Definition load (buf : list Qc) (p : Z) : option Qc :=
  if decide (0 <= p) then buf !! Z.to_nat p else None.

Definition buffer (a : ndarray) : M (list Qc) :=
  fun h => lift BadMemory (h !! data a) h.

Definition alloc (buf : list Qc) : M loc :=
  fun h => let l := fresh (dom h) in inr (l, <[l := buf]> h).

(** The elements of [a], listed in index order [o]. *)
Definition elements (o : order) (a : ndarray) : M (list Qc) :=
  do buf <- buffer a;
  lift BadMemory (mapM (fun idx => load buf (address a idx))
                       (indices o (shape a))).

(** [a.tolist()], flattened: the elements in row-major index order. *)
Definition values (a : ndarray) : M (list Qc) := elements C_order a.

(** An array that owns the whole of a buffer it was just given. *)
Definition packed (l : loc) (o : order) (shp : list nat) : ndarray :=
  {| data := l; offset := 0; shape := shp;
     strides := contiguous_strides o shp |}.

(** [numpy.zeros(shp, dtype=float32, order=o)] *)
Definition numpy_zeros (shp : list Z) (o : order) : M ndarray :=
  if forallb (fun d => 0 <=? d) shp then
    let shp' := Z.to_nat <$> shp in
    do l <- alloc (replicate (size shp') 0%Qc);
    ret (packed l o shp')
  else raise ValueError.

(** [a.copy(order)]: a new buffer holding the elements of [a], contiguous in
    memory order [o]. *)
Definition ndarray_copy (o : order) (a : ndarray) : M ndarray :=
  do vals <- elements o a;
  do l <- alloc vals;
  ret (packed l o (shape a)).

(** numpy's contiguity flags: an array with an empty dimension is contiguous
    both ways; otherwise every dimension of extent other than 1 must have
    the stride of a packed buffer. *)
Fixpoint packed_from (sd : Z) (dims : list (nat * Z)) : bool :=
  match dims with
  | [] => true
  | (d, s) :: rest =>
      if decide (d = 1%nat) then packed_from sd rest
      else bool_decide (s = sd) && packed_from (sd * Z.of_nat d) rest
  end.

Definition has_empty_dim (a : ndarray) : bool :=
  bool_decide (0%nat ∈ shape a).

Definition is_c_contiguous (a : ndarray) : bool :=
  has_empty_dim a || packed_from 1 (reverse (zip (shape a) (strides a))).

Definition is_f_contiguous (a : ndarray) : bool :=
  has_empty_dim a || packed_from 1 (zip (shape a) (strides a)).

(** [numpy.array(a)] for an array [a]: always a copy; Fortran order is kept
    for an array that is Fortran- but not C-contiguous, and an array that is
    C-contiguous is copied in C order. For an array that is neither the
    layout numpy picks depends on its version; C order stands for it here,
    and nothing below depends on that choice. *)
Definition numpy_array (a : ndarray) : M ndarray :=
  if is_f_contiguous a && negb (is_c_contiguous a)
  then ndarray_copy F_order a
  else ndarray_copy C_order a.

(** ** Python values *)

(** A [Timestep] object: its attributes are references, so two Timesteps may
    hold arrays on the same buffer. [_x], [_y], [_z] are views of [_pos]. *)
Record Timestep := mk_Timestep {
  frame : Z;
  numatoms : Z;
  _pos : ndarray;
  _unitcell : ndarray;
  _x : ndarray;
  _y : ndarray;
  _z : ndarray
}.

(** The values that reach the functions of the module. [PArray] is an array
    of numbers in the store; [PIntArray] is a one-dimensional integer array
    used as an index, given by its contents. *)
Inductive pyobj :=
  | PNone
  | PInt (n : Z)
  | PFloat (v : Qc)
  | PStr (s : string)
  | PSlice (start stop step : option Z)
  | PArray (a : ndarray)
  | PIntArray (idx : list Z)
  | PTimestep (ts : Timestep).

(** ** Indexing numpy arrays *)

(** The index an in-range [i] stands for in a dimension of extent [n]. *)
Definition wrapped (n i : Z) : Z := if decide (i < 0) then i + n else i.

(** An integer index on a dimension of extent [d]: negative values count
    from the end, anything outside [-d, d) is an IndexError. *)
Definition wrap_index (i : Z) (d : nat) : option nat :=
  let i' := wrapped (Z.of_nat d) i in
  if decide (0 <= i' < Z.of_nat d) then Some (Z.to_nat i') else None.

(** The view that fixes index [k] on axis [ax] ([a[k]] for axis 0,
    [a[:,k]] for axis 1). *)
Definition select_axis (ax : nat) (k : Z) (a : ndarray) : M ndarray :=
  match shape a !! ax, strides a !! ax with
  | Some d, Some s =>
      match wrap_index k d with
      | Some k' =>
          ret {| data := data a; offset := offset a + Z.of_nat k' * s;
                 shape := delete ax (shape a);
                 strides := delete ax (strides a) |}
      | None => raise IndexError
      end
  | _, _ => raise IndexError
  end.

(** [slice(start, stop, step).indices(length)] with the number of selected
    positions, as CPython computes them; [None] is the ValueError of a zero
    step. *)
Definition slice_indices (start stop step : option Z) (length : Z)
  : option (Z * Z * nat) :=
  let step := default 1 step in
  if decide (step = 0) then None else
  let clip (v : Z) :=
    let v := if decide (v < 0) then v + length else v in
    if decide (v < 0) then (if decide (step < 0) then -1 else 0)
    else if decide (length <= v)
         then (if decide (step < 0) then length - 1 else length)
         else v in
  let start' :=
    match start with
    | None => if decide (step < 0) then length - 1 else 0
    | Some v => clip v
    end in
  let stop' :=
    match stop with
    | None => if decide (step < 0) then -1 else length
    | Some v => clip v
    end in
  let n :=
    if decide (step < 0)
    then (if decide (stop' < start')
          then Z.quot (start' - stop' - 1) (- step) + 1 else 0)
    else (if decide (start' < stop')
          then Z.quot (stop' - start' - 1) step + 1 else 0) in
  Some (start', step, Z.to_nat n).

(** Basic slicing on axis 0: a view, never a copy. *)
Definition slice_axis0 (start stop step : option Z) (a : ndarray)
  : M ndarray :=
  match shape a, strides a with
  | d :: ds, s :: ss =>
      match slice_indices start stop step (Z.of_nat d) with
      | Some (start', step', n) =>
          ret {| data := data a; offset := offset a + start' * s;
                 shape := n :: ds; strides := step' * s :: ss |}
      | None => raise ValueError
      end
  | _, _ => raise IndexError
  end.

(** Indexing axis 0 with an integer array: every index is bounds-checked and
    the selected rows are gathered into a new buffer. *)
Definition take_rows (idx : list Z) (a : ndarray) : M ndarray :=
  match shape a with
  | [] => raise IndexError
  | _ :: rest =>
      do rows <- traverse (fun i => do r <- select_axis 0 i a;
                                    elements C_order r) idx;
      do l <- alloc (concat rows);
      ret (packed l C_order (length idx :: rest))
  end.

(** [a[key]] *)
Definition ndarray_getitem (a : ndarray) (key : pyobj) : M pyobj :=
  match key with
  | PInt i =>
      do r <- select_axis 0 i a;
      match shape r with
      | [] => do v <- elements C_order r;
              lift BadMemory (PFloat <$> head v)
      | _ => ret (PArray r)
      end
  | PSlice start stop step => do r <- slice_axis0 start stop step a;
                               ret (PArray r)
  | PIntArray idx => do r <- take_rows idx a; ret (PArray r)
  | _ => raise IndexError
  end.

(** [numpy.take(a, idx)]: picks from the flattened array, bounds-checked,
    into a new one-dimensional array. *)
Definition numpy_take (a : ndarray) (idx : list Z) : M ndarray :=
  do flat <- values a;
  do vals <- lift IndexError
               (mapM (fun i => j ← wrap_index i (length flat); flat !! j) idx);
  do l <- alloc vals;
  ret (packed l C_order [length idx]).

(** ** Writing through an array *)

Definition in_buffer (buf : list Qc) (p : Z) : bool :=
  bool_decide (0 <= p < Z.of_nat (length buf)).

Definition update_at (g : Qc -> Qc) (buf : list Qc) (p : Z) : list Qc :=
  alter g (Z.to_nat p) buf.

(** Apply [g] in place to every element of [a], in index order. *)
Definition ndarray_update (g : Qc -> Qc) (a : ndarray) : M unit :=
  do buf <- buffer a;
  let cells := address a <$> indices_C (shape a) in
  if forallb (in_buffer buf) cells
  then fun h => inr (tt, <[data a := foldl (update_at g) buf cells]> h)
  else raise BadMemory.

(** [a *= f] *)
Definition ndarray_imul (a : ndarray) (f : Qc) : M unit :=
  ndarray_update (fun v => v * f)%Qc a.

(** [a[...] = vals] for [vals] of the shape of [a], given flattened: every
    element is replaced, in index order. Any elementwise in-place operation
    ([a -= b], [a[:] = a * R]) ends in such a write. *)
Definition ndarray_assign (a : ndarray) (vals : list Qc) : M unit :=
  do buf <- buffer a;
  let cells := address a <$> indices_C (shape a) in
  if negb (bool_decide (length vals = length cells)) then raise ValueError
  else if forallb (in_buffer buf) cells
  then fun h =>
         inr (tt, <[data a := foldl (fun b pv => <[Z.to_nat pv.1 := pv.2]> b)
                                buf (zip cells vals)]> h)
  else raise BadMemory.

(** [a[i0, ..., ik] = v]: with fewer indices than dimensions the value is
    broadcast over the selected sub-array. *)
Definition ndarray_setitem (a : ndarray) (idx : list Z) (v : Qc) : M unit :=
  do w <- foldl (fun m i => do w <- m; select_axis 0 i w) (ret a) idx;
  ndarray_update (fun _ => v) w.

(** ** class Timestep *)

Module Timestep.

(** [Timestep(arg)]. The first test, [numpy.dtype(type(arg)) ==
    numpy.dtype(int)], holds exactly for integers. *)
Definition __init__ (arg : pyobj) : M Timestep :=
  do '(frame, numatoms, pos, unitcell) <-
    match arg with
    | PInt n =>
        do pos <- numpy_zeros [n; 3] F_order;
        do unitcell <- numpy_zeros [6] C_order;
        ret (0, n, pos, unitcell)
    | PTimestep other =>
        do unitcell <- numpy_array (_unitcell other);
        do pos <- numpy_array (_pos other);
        ret (frame other, numatoms other, pos, unitcell)
    | PArray a =>
        if decide (length (shape a) ≠ 2%nat) then raise ValueError else
        do unitcell <- numpy_zeros [6] C_order;
        let numatoms :=
          if decide (shape a !!! 0%nat = 3%nat)
          then Z.of_nat (shape a !!! 0%nat)
          else Z.of_nat (List.last (shape a) 0%nat) in
        do pos <- ndarray_copy F_order a;
        ret (0, numatoms, pos, unitcell)
    | PIntArray _ => raise ValueError      (* one-dimensional *)
    | _ => raise ValueError
    end;
  do x <- select_axis 1 0 pos;
  do y <- select_axis 1 1 pos;
  do z <- select_axis 1 2 pos;
  ret {| frame := frame; numatoms := numatoms; _pos := pos;
         _unitcell := unitcell; _x := x; _y := y; _z := z |}.

Definition __getitem__ (self : Timestep) (atoms : pyobj) : M pyobj :=
  match atoms with
  | PInt i =>
      let atoms := if decide (i < 0) then numatoms self + i else i in
      if decide (atoms < 0 \/ atoms >= numatoms self) then raise IndexError
      else ndarray_getitem (_pos self) (PInt atoms)
  | PSlice _ _ _ | PArray _ | PIntArray _ =>
      ndarray_getitem (_pos self) atoms
  | _ => raise TypeError
  end.

Definition __len__ (self : Timestep) : Z := numatoms self.

(** The generator [iterTS] of [__iter__]: the Timestep it closes over and the
    next value of its [xrange]. *)
Record iterTS := mk_iterTS { gi_self : Timestep; gi_i : Z }.

Definition __iter__ (self : Timestep) : iterTS :=
  {| gi_self := self; gi_i := 0 |}.

(** One [next()] on the generator; [None] is StopIteration. *)
Definition iterTS_next (g : iterTS) : M (option pyobj * iterTS) :=
  if decide (gi_i g < numatoms (gi_self g)) then
    do v <- __getitem__ (gi_self g) (PInt (gi_i g));
    ret (Some v, {| gi_self := gi_self g; gi_i := gi_i g + 1 |})
  else ret (None, g).

(** [list(g)]: calls [next()] until StopIteration; [None] when [fuel] calls
    were not enough. *)
Fixpoint iterTS_list (fuel : nat) (g : iterTS) : M (option (list pyobj)) :=
  match fuel with
  | O => ret None
  | S fuel' =>
      do r <- iterTS_next g;
      match r with
      | (None, _) => ret (Some [])
      | (Some v, g') =>
          do rest <- iterTS_list fuel' g'; ret (cons v <$> rest)
      end
  end.

Definition __deepcopy__ (self : Timestep) : M Timestep :=
  __init__ (PTimestep self).

Definition copy (self : Timestep) : M Timestep := __deepcopy__ self.

(** Layout of unitcell is [A, alpha, B, beta, gamma, C]. *)
Definition dimensions (self : Timestep) : M ndarray :=
  numpy_take (_unitcell self) [0; 2; 5; 1; 3; 4].

End Timestep.

(** ** class IObase *)

(** [MDAnalysis.core] is not among the sources. Its two members used here are
    parameters of the model: the table of flags and the function
    [units.get_conversion_factor(quantity, from, to)]. A unit is a string or
    Python's None. *)
Record Core := mk_Core {
  flags : gmap string (option string);
  get_conversion_factor : string -> option string -> option string -> exn + Qc
}.

Definition dict_get {V} (d : gmap string V) (key : string) : M V :=
  lift KeyError (d !! key).

Definition call_pure {A} (r : exn + A) : M A :=
  fun h => match r with inl e => inl e | inr a => inr (a, h) end.

(** [x *= f] followed by [return x]: a numpy array is scaled in place and
    stays the same object, a number gives a new number. *)
Definition imul (x : pyobj) (f : Qc) : M pyobj :=
  match x with
  | PArray a => exec ndarray_imul a f; ret x
  | PFloat v => ret (PFloat (v * f)%Qc)
  | PInt n => ret (PFloat (Qc_of_Z n * f)%Qc)
  | _ => raise TypeError
  end.

Module IObase.

Record self_t := mk_self { units : gmap string (option string) }.

Definition format : pyobj := PNone.

Definition default_units : gmap string (option string) :=
  <["time" := None]> (<["length" := None]> ∅).

Section methods.
Variable core : Core.

Definition convert_pos_from_native (self : self_t) (x : pyobj) : M pyobj :=
  do native <- dict_get (units self) "length";
  do base <- dict_get (flags core) "length_unit";
  do f <- call_pure (get_conversion_factor core "length" native base);
  imul x f.

(** The definition at line 107. *)
Definition convert_time_from_native (self : self_t) (t : pyobj) : M pyobj :=
  do native <- dict_get (units self) "time";
  do base <- dict_get (flags core) "time_unit";
  do f <- call_pure (get_conversion_factor core "time" native base);
  imul t f.

Definition convert_pos_to_native (self : self_t) (x : pyobj) : M pyobj :=
  do base <- dict_get (flags core) "length_unit";
  do native <- dict_get (units self) "length";
  do f <- call_pure (get_conversion_factor core "length" base native);
  imul x f.

(** The definition at line 119, under the same name as the one at 107. *)
Definition convert_time_from_native' (self : self_t) (t : pyobj) : M pyobj :=
  do base <- dict_get (flags core) "time_unit";
  do native <- dict_get (units self) "time";
  do f <- call_pure (get_conversion_factor core "time" base native);
  imul t f.

Definition close_trajectory (self : self_t) : M pyobj := ret PNone.

(** The class body binds its [def]s in order in the class namespace; a later
    binding of a name replaces the earlier one. *)
Definition method : Type := self_t -> list pyobj -> M pyobj.

Definition unary (f : self_t -> pyobj -> M pyobj) : method :=
  fun self args => match args with [x] => f self x | _ => raise TypeError end.

Definition nullary (f : self_t -> M pyobj) : method :=
  fun self args => match args with [] => f self | _ => raise TypeError end.

Definition class_body : list (string * method) :=
  [ ("convert_pos_from_native", unary convert_pos_from_native);
    ("convert_time_from_native", unary convert_time_from_native);
    ("convert_pos_to_native", unary convert_pos_to_native);
    ("convert_time_from_native", unary convert_time_from_native');
    ("close_trajectory", nullary close_trajectory) ].

Definition namespace : gmap string method :=
  foldl (fun ns def => <[def.1 := def.2]> ns) ∅ class_body.

(** [self.name(args...)] *)
Definition call (name : string) (self : self_t) (args : list pyobj)
  : M pyobj :=
  match namespace !! name with
  | Some m => m self args
  | None => raise AttributeError
  end.

End methods.
End IObase.

(** ** Observations and invariants *)

(** The element of [a] at multi-index [idx], read from the store. *)
Definition peek (h : heap) (a : ndarray) (idx : list nat) : option Qc :=
  buf ← h !! data a; load buf (address a idx).

Definition in_range (idx shp : list nat) : Prop :=
  Forall2 (fun i d => (i < d)%nat) idx shp.

(** An array is valid in a store when its buffer is allocated and every
    index of its shape falls inside the buffer. *)
Definition validb (h : heap) (a : ndarray) : bool :=
  match h !! data a with
  | Some buf =>
      bool_decide (length (strides a) = length (shape a))
      && forallb (in_buffer buf) (address a <$> indices_C (shape a))
  | None => false
  end.

Definition valid (h : heap) (a : ndarray) : Prop := validb h a = true.

(** What every constructor establishes: a two-dimensional position array
    with at least three columns and six unit-cell floats, all in the store. *)
Definition constructed (h : heap) (ts : Timestep) : Prop :=
  (exists r c, shape (_pos ts) = [r; c] /\ (3 <= c)%nat)
  /\ shape (_unitcell ts) = [6%nat]
  /\ valid h (_pos ts)
  /\ valid h (_unitcell ts).

(** The invariant of a frame in the data model: [numatoms] rows of three
    coordinates and six unit-cell floats, all in the store. *)
Definition is_frame (h : heap) (ts : Timestep) : Prop :=
  0 <= numatoms ts
  /\ shape (_pos ts) = [Z.to_nat (numatoms ts); 3%nat]
  /\ shape (_unitcell ts) = [6%nat]
  /\ valid h (_pos ts)
  /\ valid h (_unitcell ts).

(** ** Sample data *)

Definition sample_heap : heap :=
  <[1%positive := Qc_of_Z <$> [1; 2; 3; 4; 5; 6]]> ∅.

(** Arrays on the sample buffer: a row-major 2x3 matrix, a row-major 3x2
    matrix and the flat vector. *)
Definition matrix_2x3 : ndarray :=
  {| data := 1%positive; offset := 0; shape := [2; 3]%nat; strides := [3; 1] |}.

Definition matrix_3x2 : ndarray :=
  {| data := 1%positive; offset := 0; shape := [3; 2]%nat; strides := [2; 1] |}.

Definition vector_6 : ndarray :=
  {| data := 1%positive; offset := 0; shape := [6]%nat; strides := [1] |}.

(** ** Writes from outside *)

(** How client code writes into an array it holds: element (or sub-array)
    assignment, in-place scaling, and replacement of all elements, as the
    example script [rmsfit_qcp.py] does to [ts._pos]. *)
Inductive write :=
  | SetItem (idx : list Z) (v : Qc)      (* [arr[idx] = v] *)
  | Scale (f : Qc)                       (* [arr *= f] *)
  | Assign (vals : list Qc).             (* [arr[...] = vals], [arr -= b] *)

Definition apply_write (a : ndarray) (w : write) : M unit :=
  match w with
  | SetItem idx v => ndarray_setitem a idx v
  | Scale f => ndarray_imul a f
  | Assign vals => ndarray_assign a vals
  end.

(** The arrays a Timestep owns, and their buffers. Every view taken from
    the Timestep ([_x], a row [ts[i]], a slice) is an array on one of these
    buffers. *)
Definition arrays (ts : Timestep) : list ndarray := [_pos ts; _unitcell ts].

Definition buffers (ts : Timestep) : list loc := data <$> arrays ts.

(** A frame of two atoms, [(10, 20, 30)] and [(11, 21, 31)], with unit cell
    storage [1, 2, 3, 4, 5, 6]. *)
Definition frame_heap : heap :=
  <[2%positive := Qc_of_Z <$> [1; 2; 3; 4; 5; 6]]>
    (<[1%positive := Qc_of_Z <$> [10; 11; 20; 21; 30; 31]]> ∅).

Definition sample_frame : Timestep :=
  {| frame := 0; numatoms := 2;
     _pos := packed 1%positive F_order [2; 3]%nat;
     _unitcell := packed 2%positive C_order [6]%nat;
     _x := {| data := 1%positive; offset := 0;
              shape := [2]%nat; strides := [1] |};
     _y := {| data := 1%positive; offset := 2;
              shape := [2]%nat; strides := [1] |};
     _z := {| data := 1%positive; offset := 4;
              shape := [2]%nat; strides := [1] |} |}.

(** Modelled from the spec: the unit registry [MDAnalysis.core.units] and the
    flags of [MDAnalysis.core] are absent from the sources; the spec says
    only that the factor for (quantity, from-unit, to-unit) is looked up in
    an external registry and that unknown units fail. This sample registry
    keeps, per quantity, the size of the base unit in each unit and answers
    with the ratio of the two entries. *)
Definition sample_table : gmap string (gmap string Qc) :=
  <["length" := <["Angstrom" := 1%Qc]> (<["nm" := (1 / Qc_of_Z 10)%Qc]> ∅)]>
  (<["time" := <["ps" := 1%Qc]> (<["fs" := Qc_of_Z 1000]> ∅)]> ∅).

Definition sample_factor (quantity : string) (u1 u2 : option string)
  : exn + Qc :=
  match u1, u2, sample_table !! quantity with
  | Some u1, Some u2, Some table =>
      match table !! u1, table !! u2 with
      | Some f1, Some f2 => inr (f2 / f1)%Qc
      | _, _ => inl KeyError
      end
  | _, _, _ => inl KeyError
  end.

Definition sample_core : Core :=
  {| flags := <["length_unit" := Some "Angstrom"]>
                (<["time_unit" := Some "ps"]> ∅);
     get_conversion_factor := sample_factor |}.

(** A stream whose native units are nanometres and femtoseconds. *)
Definition sample_stream : IObase.self_t :=
  {| IObase.units := <["length" := Some "nm"]> (<["time" := Some "fs"]> ∅) |}.

(** ** Further observations *)

(** The buffer positions an array looks at, in index order. *)
Definition cells (a : ndarray) : list Z := address a <$> indices_C (shape a).

(** No buffer position is seen under two indices (no self-overlap). *)
Definition distinct_cells (a : ndarray) : Prop := NoDup (cells a).

(** An argument of [Timestep(...)] that refers to the store refers to live
    data: a Timestep that a constructor gave, or an array inside its buffer. *)
Definition well_formed (h : heap) (arg : pyobj) : Prop :=
  match arg with
  | PTimestep other => constructed h other
  | PArray a => valid h a
  | _ => True
  end.

(** The arguments [Timestep(...)] accepts. *)
Definition accepted (arg : pyobj) : Prop :=
  match arg with
  | PInt n => 0 <= n
  | PTimestep _ => True
  | PArray a => exists r c, shape a = [r; c] /\ (3 <= c)%nat
  | _ => False
  end.

(** What a successful [Timestep(...)] leaves, from store [h] to store [h']:
    a Timestep on two new buffers of its own, neither overlapping itself,
    and every buffer that existed before unchanged. *)
Definition built (h : heap) (ts : Timestep) (h' : heap) : Prop :=
  constructed h' ts
  /\ h !! data (_pos ts) = None
  /\ h !! data (_unitcell ts) = None
  /\ data (_pos ts) ≠ data (_unitcell ts)
  /\ offset (_pos ts) = 0
  /\ distinct_cells (_pos ts)
  /\ distinct_cells (_unitcell ts)
  /\ (forall l, is_Some (h !! l) -> h' !! l = h !! l).

(** * Proofs *)

(** ** Lists *)

Section list_lemmas.
Context {A B : Type}.

Lemma bind_uniform_length (f : A -> list B) (l : list A) (m : nat) :
  (forall x, x ∈ l -> length (f x) = m) ->
  length (l ≫= f) = (length l * m)%nat.
Proof.
  induction l as [|y l IH]; intros Hf; [done|].
  rewrite bind_cons, length_app, IH, Hf; [simpl; lia|set_solver|set_solver].
Qed.

Lemma lookup_bind_uniform (f : A -> list B) (l : list A) (m i p : nat) x :
  (forall y, y ∈ l -> length (f y) = m) ->
  l !! i = Some x -> (p < m)%nat ->
  (l ≫= f) !! (i * m + p)%nat = f x !! p.
Proof.
  revert i. induction l as [|y l IH]; intros i Hf Hi Hp; [done|].
  rewrite bind_cons. destruct i as [|i]; simpl in *.
  - simplify_eq. rewrite lookup_app_l; [done|].
    rewrite Hf; [done|set_solver].
  - rewrite lookup_app_r; rewrite (Hf y); try set_solver; try lia.
    replace (m + i * m + p - m)%nat with (i * m + p)%nat by lia.
    apply IH; [set_solver|done..].
Qed.

End list_lemmas.

(** ** Index enumeration and packed strides *)

Lemma indices_C_length shp : length (indices_C shp) = size shp.
Proof.
  induction shp as [|d rest IH]; [done|]. simpl.
  rewrite (bind_uniform_length _ _ (size rest)), length_seq; [done|].
  intros i _. by rewrite length_fmap.
Qed.

Lemma indices_F_length shp : length (indices_F shp) = size shp.
Proof.
  induction shp as [|d rest IH]; [done|]. simpl.
  rewrite (bind_uniform_length _ _ d), IH; [lia|].
  intros i _. by rewrite length_fmap, length_seq.
Qed.

Lemma indices_length o shp : length (indices o shp) = size shp.
Proof. destruct o; [apply indices_C_length|apply indices_F_length]. Qed.

Lemma indices_C_in_range shp idx : idx ∈ indices_C shp -> in_range idx shp.
Proof.
  revert idx. induction shp as [|d rest IH]; intros idx; simpl.
  - intros ->%list_elem_of_singleton. constructor.
  - intros (i & Hidx & Hi)%list_elem_of_bind.
    apply list_elem_of_fmap in Hidx as (idx' & -> & Hidx').
    apply elem_of_seq in Hi. constructor; [lia|by apply IH].
Qed.

Lemma indices_F_in_range shp idx : idx ∈ indices_F shp -> in_range idx shp.
Proof.
  revert idx. induction shp as [|d rest IH]; intros idx; simpl.
  - intros ->%list_elem_of_singleton. constructor.
  - intros (idx' & Hidx & Hidx')%list_elem_of_bind.
    apply list_elem_of_fmap in Hidx as (i & -> & Hi).
    apply elem_of_seq in Hi. constructor; [lia|by apply IH].
Qed.

Lemma in_range_max idx shp : in_range idx shp -> Nat.max 1 <$> shp = shp.
Proof.
  induction 1 as [|i d idx shp Hi _ IH]; [done|].
  rewrite fmap_cons, IH. f_equal. lia.
Qed.

Lemma position_C shp idx :
  in_range idx shp ->
  exists k : nat, dot idx (strides_C shp) = Z.of_nat k
                  /\ indices_C shp !! k = Some idx.
Proof.
  induction 1 as [|i d idx shp Hi Hr (k & Hk & Hlook)]; [by exists 0%nat|].
  exists (i * size shp + k)%nat. simpl. split.
  - rewrite (in_range_max _ _ Hr), Hk. lia.
  - rewrite (lookup_bind_uniform _ _ (size shp) i k i).
    + by rewrite list_lookup_fmap, Hlook.
    + intros ? _. by rewrite length_fmap, indices_C_length.
    + by apply lookup_seq.
    + apply lookup_lt_Some in Hlook. by rewrite indices_C_length in Hlook.
Qed.

Lemma dot_strides_F_from acc idx shp :
  dot idx (strides_F_from acc shp) = acc * dot idx (strides_F shp).
Proof.
  unfold strides_F. revert acc idx.
  induction shp as [|d rest IH]; intros acc [|i idx]; simpl; try lia.
  rewrite (IH (acc * _)), (IH (1 * _)). lia.
Qed.

Lemma position_F shp idx :
  in_range idx shp ->
  exists k : nat, dot idx (strides_F shp) = Z.of_nat k
                  /\ indices_F shp !! k = Some idx.
Proof.
  induction 1 as [|i d idx shp Hi Hr (k & Hk & Hlook)]; [by exists 0%nat|].
  exists (k * d + i)%nat. split.
  - unfold strides_F. simpl. rewrite dot_strides_F_from, Hk.
    rewrite Nat.max_r by lia. lia.
  - simpl. rewrite (lookup_bind_uniform _ _ d k i idx); [|..|done|done].
    + rewrite list_lookup_fmap, lookup_seq_lt; done.
    + intros ? _. by rewrite length_fmap, length_seq.
Qed.

Lemma position o shp idx :
  in_range idx shp ->
  exists k : nat, dot idx (contiguous_strides o shp) = Z.of_nat k
                  /\ indices o shp !! k = Some idx.
Proof. destruct o; [apply position_C|apply position_F]. Qed.

Lemma indices_in_range o shp idx : idx ∈ indices o shp <-> in_range idx shp.
Proof.
  split.
  - destruct o; [apply indices_C_in_range|apply indices_F_in_range].
  - intros (k & _ & Hk)%(position o). by eapply list_elem_of_lookup_2.
Qed.

(** ** The monad *)

Lemma bind_ok {A B} (m : M A) (k : A -> M B) h a h' :
  m h = inr (a, h') -> bind m k h = k a h'.
Proof. unfold bind. by intros ->. Qed.

Lemma bind_raise {A B} (m : M A) (k : A -> M B) h e :
  m h = inl e -> bind m k h = inl e.
Proof. unfold bind. by intros ->. Qed.

Lemma bind_inv {A B} (m : M A) (k : A -> M B) h b h'' :
  bind m k h = inr (b, h'') ->
  exists a h', m h = inr (a, h') /\ k a h' = inr (b, h'').
Proof.
  unfold bind. destruct (m h) as [e|[a h']]; [done|]. by exists a, h'.
Qed.

(** ** Reading arrays from the store *)

Lemma in_buffer_load buf p : in_buffer buf p = true <-> is_Some (load buf p).
Proof.
  unfold in_buffer, load. rewrite bool_decide_eq_true.
  case_decide; [rewrite lookup_lt_is_Some; lia|].
  split; [lia|by intros [? ?]].
Qed.

Lemma valid_inv h a :
  valid h a ->
  exists buf, h !! data a = Some buf
              /\ length (strides a) = length (shape a)
              /\ forall idx, in_range idx (shape a) ->
                             is_Some (load buf (address a idx)).
Proof.
  unfold valid, validb. destruct (h !! data a) as [buf|]; [|done].
  intros [Hlen Hall]%andb_prop. exists buf. split; [done|].
  split; [by apply bool_decide_eq_true in Hlen|].
  intros idx Hidx. apply in_buffer_load.
  rewrite forallb_forall in Hall. apply Hall, list_elem_of_In.
  apply list_elem_of_fmap_2. by apply (indices_in_range C_order).
Qed.

Lemma valid_intro h a buf :
  h !! data a = Some buf ->
  length (strides a) = length (shape a) ->
  (forall idx, in_range idx (shape a) ->
               is_Some (load buf (address a idx))) ->
  valid h a.
Proof.
  intros Hbuf Hlen Hall. unfold valid, validb. rewrite Hbuf.
  apply andb_true_intro. split; [by apply bool_decide_eq_true|].
  apply forallb_forall. intros p (idx & -> & Hidx)%list_elem_of_In%list_elem_of_fmap.
  apply in_buffer_load, Hall. by apply (indices_in_range C_order).
Qed.

(** Only the array's own buffer matters. *)
Lemma peek_agree h h' a idx :
  h' !! data a = h !! data a -> peek h' a idx = peek h a idx.
Proof. unfold peek. by intros ->. Qed.

Lemma valid_agree h h' a :
  h' !! data a = h !! data a -> valid h a -> valid h' a.
Proof. unfold valid, validb. by intros ->. Qed.

Lemma elements_agree o h h' a vals :
  h' !! data a = h !! data a ->
  elements o a h = inr (vals, h) -> elements o a h' = inr (vals, h').
Proof.
  unfold elements, bind, buffer. intros ->.
  destruct (h !! data a) as [buf|]; [|done]. simpl.
  destruct (mapM _ _); [|done]. simpl. unfold ret. congruence.
Qed.

Lemma elements_spec o h a :
  valid h a ->
  exists vals,
    elements o a h = inr (vals, h)
    /\ length vals = size (shape a)
    /\ forall k idx, indices o (shape a) !! k = Some idx ->
                     vals !! k = peek h a idx.
Proof.
  intros (buf & Hbuf & _ & Hall)%valid_inv.
  destruct (mapM_is_Some_2 (fun idx => load buf (address a idx))
              (indices o (shape a))) as [vals Hvals].
  { apply Forall_forall. intros idx Hidx%list_elem_of_In. apply Hall.
    by apply (indices_in_range o). }
  exists vals. unfold elements, bind, buffer. rewrite Hbuf. simpl.
  rewrite Hvals. split; [done|]. split.
  - apply length_mapM in Hvals. by rewrite <- Hvals, indices_length.
  - intros k idx Hk. apply mapM_Some_1 in Hvals.
    destruct (Forall2_lookup_l _ _ _ _ _ Hvals Hk) as (v & Hv & Hload).
    unfold peek. rewrite Hbuf. simpl. congruence.
Qed.

(** ** Allocation *)

Lemma alloc_fresh (h : heap) : h !! fresh (dom h) = None.
Proof. apply not_elem_of_dom, is_fresh. Qed.

Lemma insert_fresh_agree (h : heap) buf (a : ndarray) :
  is_Some (h !! data a) -> <[fresh (dom h) := buf]> h !! data a = h !! data a.
Proof.
  intros [b Hb]. apply lookup_insert_ne. intros Heq.
  rewrite <- Heq, alloc_fresh in Hb. done.
Qed.

Lemma valid_allocated h a : valid h a -> is_Some (h !! data a).
Proof. intros (buf & -> & _)%valid_inv. eauto. Qed.

(** ** Freshly allocated, packed arrays *)

Lemma contiguous_strides_length o shp :
  length (contiguous_strides o shp) = length shp.
Proof.
  destruct o; simpl; [induction shp; simpl; auto|].
  unfold strides_F. generalize 1.
  induction shp; intros; simpl; auto.
Qed.

Lemma packed_peek (h : heap) l buf o shp idx :
  h !! l = Some buf -> in_range idx shp ->
  exists k : nat,
    dot idx (contiguous_strides o shp) = Z.of_nat k
    /\ indices o shp !! k = Some idx
    /\ peek h (packed l o shp) idx = buf !! k.
Proof.
  intros Hbuf (k & Hdot & Hk)%(position o). exists k.
  split; [done|]. split; [done|].
  unfold peek, address, load. simpl. rewrite Hbuf. simpl.
  rewrite Hdot, Z.add_0_l, Nat2Z.id. case_decide; [done|lia].
Qed.

Lemma packed_valid (h : heap) l buf o shp :
  h !! l = Some buf -> length buf = size shp -> valid h (packed l o shp).
Proof.
  intros Hbuf Hlen. apply (valid_intro _ _ buf); simpl; [done|..].
  - apply contiguous_strides_length.
  - intros idx Hidx.
    destruct (packed_peek h l buf o shp idx Hbuf Hidx) as (k & _ & Hk & Hpeek).
    unfold peek in Hpeek. simpl in Hpeek. rewrite Hbuf in Hpeek. simpl in Hpeek.
    rewrite Hpeek. apply lookup_lt_is_Some.
    apply lookup_lt_Some in Hk. rewrite indices_length in Hk. lia.
Qed.

Lemma numpy_zeros_spec shp o (h : heap) :
  Forall (fun d => 0 <= d) shp ->
  let l := fresh (dom h) in
  let shp' := Z.to_nat <$> shp in
  let h' := <[l := replicate (size shp') 0%Qc]> h in
  numpy_zeros shp o h = inr (packed l o shp', h')
  /\ valid h' (packed l o shp')
  /\ forall idx, in_range idx shp' -> peek h' (packed l o shp') idx = Some 0%Qc.
Proof.
  intros Hshp l shp' h'. unfold numpy_zeros.
  assert (forallb (fun d => 0 <=? d) shp = true) as ->.
  { apply forallb_forall. intros d Hd%list_elem_of_In.
    rewrite Forall_forall in Hshp. apply Z.leb_le.
    apply Hshp. by apply list_elem_of_In. }
  assert (h' !! l = Some (replicate (size shp') 0%Qc)) as Hl
    by apply lookup_insert_eq.
  split; [done|]. split.
  - eapply packed_valid; [done|]. by rewrite length_replicate.
  - intros idx Hidx.
    destruct (packed_peek h' l _ o shp' idx Hl Hidx) as (k & _ & Hk & ->).
    apply lookup_replicate_2.
    apply lookup_lt_Some in Hk. by rewrite indices_length in Hk.
Qed.

Lemma numpy_zeros_negative shp o h :
  Exists (fun d => d < 0) shp -> numpy_zeros shp o h = inl ValueError.
Proof.
  intros Hneg. unfold numpy_zeros.
  destruct (forallb _ shp) eqn:Hall; [|done].
  rewrite forallb_forall in Hall. apply Exists_exists in Hneg as (d & Hd & Hlt).
  apply Hall, Z.leb_le in Hd. lia.
Qed.

Lemma ndarray_copy_spec o a (h : heap) :
  valid h a ->
  exists vals,
    let l := fresh (dom h) in
    let h' := <[l := vals]> h in
    elements o a h = inr (vals, h)
    /\ ndarray_copy o a h = inr (packed l o (shape a), h')
    /\ valid h' (packed l o (shape a))
    /\ forall idx, in_range idx (shape a) ->
                   peek h' (packed l o (shape a)) idx = peek h a idx.
Proof.
  intros Hvalid.
  destruct (elements_spec o h a Hvalid) as (vals & Hel & Hlen & Hvals).
  exists vals. intros l h'.
  assert (h' !! l = Some vals) as Hl by apply lookup_insert_eq.
  split; [done|]. split; [|split].
  - unfold ndarray_copy. by rewrite (bind_ok _ _ _ _ _ Hel).
  - by eapply packed_valid.
  - intros idx Hidx.
    destruct (packed_peek h' l _ o _ idx Hl Hidx) as (k & _ & Hk & ->).
    by apply Hvals.
Qed.

Lemma numpy_array_spec a (h : heap) :
  valid h a ->
  exists o vals,
    let l := fresh (dom h) in
    let h' := <[l := vals]> h in
    numpy_array a h = inr (packed l o (shape a), h')
    /\ valid h' (packed l o (shape a))
    /\ forall idx, in_range idx (shape a) ->
                   peek h' (packed l o (shape a)) idx = peek h a idx.
Proof.
  intros Hvalid. unfold numpy_array.
  destruct (is_f_contiguous a && negb (is_c_contiguous a));
    [exists F_order|exists C_order];
    (edestruct ndarray_copy_spec as (vals & _ & ? & ? & ?); [done|]);
    by exists vals.
Qed.

(** ** Integer indices and views *)

Lemma wrap_index_nonneg i d :
  0 <= i < Z.of_nat d -> wrap_index i d = Some (Z.to_nat i).
Proof. intros. unfold wrap_index, wrapped. repeat case_decide; done || lia. Qed.

Lemma wrap_index_neg i d :
  - Z.of_nat d <= i < 0 -> wrap_index i d = Some (Z.to_nat (i + Z.of_nat d)).
Proof. intros. unfold wrap_index, wrapped. repeat case_decide; done || lia. Qed.

Lemma wrap_index_None i d :
  i < - Z.of_nat d \/ Z.of_nat d <= i -> wrap_index i d = None.
Proof. intros. unfold wrap_index, wrapped. repeat case_decide; done || lia. Qed.

Lemma select_row a r c s0 s1 i h :
  shape a = [r; c] -> strides a = [s0; s1] -> 0 <= i < Z.of_nat r ->
  select_axis 0 i a h
  = inr ({| data := data a; offset := offset a + i * s0;
            shape := [c]; strides := [s1] |}, h).
Proof.
  intros Hshape Hstrides Hi. unfold select_axis.
  rewrite Hshape, Hstrides. simpl.
  rewrite wrap_index_nonneg by done. by rewrite Z2Nat.id by lia.
Qed.

Lemma select_col a r c s0 s1 k h :
  shape a = [r; c] -> strides a = [s0; s1] -> 0 <= k < Z.of_nat c ->
  select_axis 1 k a h
  = inr ({| data := data a; offset := offset a + k * s1;
            shape := [r]; strides := [s0] |}, h).
Proof.
  intros Hshape Hstrides Hk. unfold select_axis.
  rewrite Hshape, Hstrides. simpl.
  rewrite wrap_index_nonneg by done. by rewrite Z2Nat.id by lia.
Qed.

Lemma select_col_out_of_bounds a r c k h :
  shape a = [r; c] -> Z.of_nat c <= k ->
  select_axis 1 k a h = inl IndexError.
Proof.
  intros Hshape Hk. unfold select_axis. rewrite Hshape. simpl.
  destruct (strides a !! 1%nat); [|done].
  rewrite wrap_index_None; [done|lia].
Qed.

(** ** Timestep(n) *)

(** The tail of [__init__], shared by its three branches: the per-axis
    views exist as soon as the position array has three columns. *)
Lemma init_views (k : ndarray -> ndarray -> ndarray -> Timestep)
    l o r c h :
  (3 <= c)%nat ->
  exists x y z,
    (do x <- select_axis 1 0 (packed l o [r; c]);
     do y <- select_axis 1 1 (packed l o [r; c]);
     do z <- select_axis 1 2 (packed l o [r; c]);
     ret (k x y z)) h = inr (k x y z, h).
Proof.
  intros Hc.
  assert (exists s0 s1, strides (packed l o [r; c]) = [s0; s1])
    as (s0 & s1 & Hs) by (destruct o; simpl; eauto).
  do 3 eexists.
  rewrite (bind_ok _ _ _ _ _ (select_col (packed l o [r; c]) r c s0 s1 0 h eq_refl Hs ltac:(lia))).
  rewrite (bind_ok _ _ _ _ _ (select_col (packed l o [r; c]) r c s0 s1 1 h eq_refl Hs ltac:(lia))).
  rewrite (bind_ok _ _ _ _ _ (select_col (packed l o [r; c]) r c s0 s1 2 h eq_refl Hs ltac:(lia))).
  reflexivity.
Qed.

Lemma init_int (n : Z) (h : heap) :
  0 <= n ->
  let l1 := fresh (dom h) in
  let h1 := <[l1 := replicate (size [Z.to_nat n; 3%nat]) 0%Qc]> h in
  let l2 := fresh (dom h1) in
  let h2 := <[l2 := replicate 6 0%Qc]> h1 in
  exists x y z,
    Timestep.__init__ (PInt n) h
    = inr ({| frame := 0; numatoms := n;
              _pos := packed l1 F_order [Z.to_nat n; 3%nat];
              _unitcell := packed l2 C_order [6%nat];
              _x := x; _y := y; _z := z |}, h2).
Proof.
  intros Hn l1 h1 l2 h2.
  destruct (numpy_zeros_spec [n; 3] F_order h) as (Hpos & _);
    [repeat constructor; lia|].
  destruct (numpy_zeros_spec [6] C_order h1) as (Hcell & _);
    [repeat constructor; lia|].
  edestruct (init_views (fun x y z =>
     {| frame := 0; numatoms := n;
        _pos := packed l1 F_order [Z.to_nat n; 3%nat];
        _unitcell := packed l2 C_order [6%nat];
        _x := x; _y := y; _z := z |}) l1 F_order (Z.to_nat n) 3%nat h2)
    as (x & y & z & Hviews); [lia|].
  exists x, y, z. unfold Timestep.__init__.
  rewrite (bind_ok _ _ h (0, n, packed l1 F_order [Z.to_nat n; 3%nat],
                          packed l2 C_order [6%nat]) h2); [exact Hviews|].
  rewrite (bind_ok _ _ _ _ _ Hpos), (bind_ok _ _ _ _ _ Hcell). reflexivity.
Qed.

Lemma init_negative (n : Z) (h : heap) :
  n < 0 -> Timestep.__init__ (PInt n) h = inl ValueError.
Proof.
  intros Hn. unfold Timestep.__init__.
  apply bind_raise, bind_raise, numpy_zeros_negative.
  apply Exists_cons_hd. exact Hn.
Qed.

Lemma in_range_2 i j r c :
  in_range [i; j] [r; c] <-> (i < r)%nat /\ (j < c)%nat.
Proof.
  split.
  - intros H. inversion H as [|???? Hi H']; subst.
    inversion H' as [|???? Hj _]; subst. done.
  - intros [Hi Hj]. repeat constructor; done.
Qed.

Lemma in_range_1 i d : in_range [i] [d] <-> (i < d)%nat.
Proof.
  split.
  - intros H. by inversion H; subst.
  - intros Hi. repeat constructor; done.
Qed.

Lemma is_frame_constructed h ts : is_frame h ts -> constructed h ts.
Proof.
  intros (_ & Hshape & Hcell & Hvpos & Hvcell).
  split; [|done]. eexists _, _. split; [exact Hshape|lia].
Qed.

(** C5: for every non-negative integer [n], [Timestep(n)] succeeds and gives
    a Timestep of length [n] whose position array has shape [(n, 3)] with
    every entry zero and whose six unit-cell parameters are all zero. *)
Theorem new_by_atom_count_zero_filled (n : Z) (h : heap) :
  0 <= n ->
  exists ts h',
    Timestep.__init__ (PInt n) h = inr (ts, h')
    /\ Timestep.__len__ ts = n
    /\ shape (_pos ts) = [Z.to_nat n; 3%nat]
    /\ (forall i j, (i < Z.to_nat n)%nat -> (j < 3)%nat ->
                    peek h' (_pos ts) [i; j] = Some 0%Qc)
    /\ shape (_unitcell ts) = [6%nat]
    /\ (forall k, (k < 6)%nat -> peek h' (_unitcell ts) [k] = Some 0%Qc)
    /\ is_frame h' ts.
Proof.
  intros Hn. destruct (init_int n h Hn) as (x & y & z & Hinit).
  set (l1 := fresh (dom h)) in *.
  set (h1 := <[l1 := replicate (size [Z.to_nat n; 3%nat]) 0%Qc]> h) in *.
  set (l2 := fresh (dom h1)) in *.
  set (h2 := <[l2 := replicate 6 0%Qc]> h1) in *.
  destruct (numpy_zeros_spec [n; 3] F_order h) as (_ & Hv1 & Hz1);
    [repeat constructor; lia|].
  destruct (numpy_zeros_spec [6] C_order h1) as (_ & Hv2 & Hz2);
    [repeat constructor; lia|].
  fold l1 in Hv1, Hz1. fold h1 in Hv1, Hz1. fold l2 in Hv2, Hz2.
  assert (h2 !! l1 = h1 !! l1) as Hagree.
  { apply (insert_fresh_agree h1 _ (packed l1 F_order [Z.to_nat n; 3%nat])).
    by apply valid_allocated in Hv1. }
  eexists _, h2. split; [exact Hinit|]. simpl.
  split; [done|]. split; [done|]. split; [|split; [done|split]].
  - intros i j Hi Hj.
    rewrite (peek_agree h1 h2 (packed l1 F_order _)) by done.
    apply Hz1. by apply in_range_2.
  - intros k Hk. apply Hz2. by apply in_range_1.
  - repeat split; simpl; try done.
    by apply (valid_agree h1 h2 (packed l1 F_order _)).
Qed.

Lemma new_by_atom_count_zero_filled_witness :
  exists ts h',
    Timestep.__init__ (PInt 2) ∅ = inr (ts, h')
    /\ Timestep.__len__ ts = 2
    /\ shape (_pos ts) = [Z.to_nat 2; 3%nat]
    /\ (forall i j, (i < Z.to_nat 2)%nat -> (j < 3)%nat ->
                    peek h' (_pos ts) [i; j] = Some 0%Qc)
    /\ shape (_unitcell ts) = [6%nat]
    /\ (forall k, (k < 6)%nat -> peek h' (_unitcell ts) [k] = Some 0%Qc)
    /\ is_frame h' ts.
Proof. apply (new_by_atom_count_zero_filled 2 ∅). lia. Defined.

(** ** Timestep(array) *)

Ltac minv H :=
  repeat match type of H with
  | bind _ _ _ = inr _ =>
      let a := fresh "a" in let h := fresh "h" in
      let H1 := fresh "H" in
      apply bind_inv in H as (a & h & H1 & H)
  end.

Lemma init_matrix a r c (h : heap) :
  shape a = [r; c] -> valid h a -> (3 <= c)%nat ->
  let l1 := fresh (dom h) in
  let h1 := <[l1 := replicate 6 0%Qc]> h in
  let l2 := fresh (dom h1) in
  exists vals x y z,
    elements F_order a h = inr (vals, h)
    /\ Timestep.__init__ (PArray a) h
       = inr ({| frame := 0;
                 numatoms := Z.of_nat (if decide (r = 3%nat) then r else c);
                 _pos := packed l2 F_order [r; c];
                 _unitcell := packed l1 C_order [6%nat];
                 _x := x; _y := y; _z := z |}, <[l2 := vals]> h1).
Proof.
  intros Hshape Hvalid Hc l1 h1 l2.
  destruct (numpy_zeros_spec [6] C_order h) as (Hcell & _);
    [repeat constructor; lia|].
  assert (valid h1 a) as Hvalid1.
  { eapply valid_agree; [|done].
    by apply insert_fresh_agree, valid_allocated. }
  destruct (ndarray_copy_spec F_order a h1 Hvalid1)
    as (vals & Hel & Hcopy & _).
  edestruct (init_views (fun x y z =>
     {| frame := 0;
        numatoms := Z.of_nat (if decide (r = 3%nat) then r else c);
        _pos := packed l2 F_order [r; c];
        _unitcell := packed l1 C_order [6%nat];
        _x := x; _y := y; _z := z |}) l2 F_order r c (<[l2 := vals]> h1))
    as (x & y & z & Hviews); [lia|].
  exists vals, x, y, z. split.
  { apply (elements_agree _ h1 h); [|done].
    symmetry. by apply insert_fresh_agree, valid_allocated. }
  unfold Timestep.__init__.
  rewrite (bind_ok _ _ h (0, Z.of_nat (if decide (r = 3%nat) then r else c),
                          packed l2 F_order [r; c],
                          packed l1 C_order [6%nat]) (<[l2 := vals]> h1));
    [exact Hviews|].
  rewrite Hshape. simpl. try (case_decide; [done|]).
  rewrite (bind_ok _ _ _ _ _ Hcell).
  rewrite Hshape in Hcopy. rewrite (bind_ok _ _ _ _ _ Hcopy).
  unfold ret. do 3 f_equal. by repeat case_decide.
Qed.

Lemma init_matrix_numatoms a r c h ts h' :
  shape a = [r; c] ->
  Timestep.__init__ (PArray a) h = inr (ts, h') ->
  numatoms ts = Z.of_nat (if decide (r = 3%nat) then r else c).
Proof.
  intros Hshape Hinit. unfold Timestep.__init__ in Hinit.
  rewrite Hshape in Hinit. simpl in Hinit.
  apply bind_inv in Hinit as ([[[fr na] pos] uc] & h1 & Halloc & Hviews).
  try (case_decide; [done|]). minv Halloc. minv Hviews.
  unfold ret in *. simplify_eq. simpl. by repeat case_decide.
Qed.

Lemma init_matrix_not_2d a h :
  length (shape a) ≠ 2%nat ->
  Timestep.__init__ (PArray a) h = inl ValueError.
Proof.
  intros Hdim. unfold Timestep.__init__. apply bind_raise.
  by case_decide.
Qed.

Lemma init_matrix_narrow a r c h :
  shape a = [r; c] -> valid h a -> (c < 3)%nat ->
  Timestep.__init__ (PArray a) h = inl IndexError.
Proof.
  intros Hshape Hvalid Hc.
  set (h1 := <[fresh (dom h) := replicate 6 0%Qc]> h).
  destruct (numpy_zeros_spec [6] C_order h) as (Hcell & _);
    [repeat constructor; lia|].
  assert (valid h1 a) as Hvalid1.
  { eapply valid_agree; [|done].
    by apply insert_fresh_agree, valid_allocated. }
  destruct (ndarray_copy_spec F_order a h1 Hvalid1)
    as (vals & _ & Hcopy & _).
  rewrite Hshape in Hcopy.
  unfold Timestep.__init__.
  erewrite bind_ok; cycle 1.
  { rewrite Hshape. simpl. try (case_decide; [done|]).
    rewrite (bind_ok _ _ _ _ _ Hcell), (bind_ok _ _ _ _ _ Hcopy).
    reflexivity. }
  simpl.
  assert (exists s0 s1, strides (packed (fresh (dom h1)) F_order [r; c])
                        = [s0; s1]) as (s0 & s1 & Hs) by (simpl; eauto).
  destruct c as [|[|[|c]]]; [| | |lia].
  - apply bind_raise.
    by apply (select_col_out_of_bounds _ r 0%nat).
  - rewrite (bind_ok _ _ _ _ _ (select_col (packed _ F_order [r; 1%nat])
                r 1%nat s0 s1 0 _ eq_refl Hs ltac:(lia))).
    apply bind_raise. by apply (select_col_out_of_bounds _ r 1%nat).
  - rewrite (bind_ok _ _ _ _ _ (select_col (packed _ F_order [r; 2%nat])
                r 2%nat s0 s1 0 _ eq_refl Hs ltac:(lia))).
    rewrite (bind_ok _ _ _ _ _ (select_col (packed _ F_order [r; 2%nat])
                r 2%nat s0 s1 1 _ eq_refl Hs ltac:(lia))).
    apply bind_raise. by apply (select_col_out_of_bounds _ r 2%nat).
Qed.

(** C2: a two-dimensional buffer with at least three columns is adopted, and
    whenever [Timestep(buf)] succeeds on a buffer of shape [(r, c)] the atom
    count is [r] if [r = 3] and the last dimension [c] otherwise. *)
Theorem new_from_matrix_atom_count a r c h :
  shape a = [r; c] ->
  (valid h a -> (3 <= c)%nat ->
   exists ts h', Timestep.__init__ (PArray a) h = inr (ts, h'))
  /\ (forall ts h',
        Timestep.__init__ (PArray a) h = inr (ts, h') ->
        Timestep.__len__ ts
        = Z.of_nat (if decide (r = 3%nat) then r else c)).
Proof.
  intros Hshape. split.
  - intros Hvalid Hc.
    destruct (init_matrix a r c h Hshape Hvalid Hc)
      as (vals & x & y & z & _ & Hinit).
    eauto.
  - intros ts h'. by apply init_matrix_numatoms.
Qed.

Lemma new_from_matrix_atom_count_witness :
  (exists ts h', Timestep.__init__ (PArray matrix_2x3) sample_heap
                 = inr (ts, h'))
  /\ (forall ts h',
        Timestep.__init__ (PArray matrix_2x3) sample_heap = inr (ts, h') ->
        Timestep.__len__ ts = 3).
Proof.
  destruct (new_from_matrix_atom_count matrix_2x3 2 3 sample_heap eq_refl)
    as [Hadopt Hcount].
  split; [apply Hadopt; [reflexivity|lia]|exact Hcount].
Defined.

(** C9, as stated, fails: a two-dimensional 3x2 buffer is not adopted; taking
    the view of the third column raises IndexError. *)
Lemma new_from_matrix_two_columns :
  length (shape matrix_3x2) = 2%nat
  /\ valid sample_heap matrix_3x2
  /\ Timestep.__init__ (PArray matrix_3x2) sample_heap = inl IndexError.
Proof. repeat split; vm_compute; reflexivity. Qed.

(** C9, amended: a buffer whose number of dimensions is not 2 is rejected
    with ValueError; a two-dimensional buffer with at least three columns is
    adopted, its data copied into a new buffer in column-major layout (element
    [(i, j)] at position [i + j * r], column after column); a two-dimensional
    buffer with fewer than three columns is rejected with IndexError. *)
Theorem new_from_matrix_shape a h :
  (length (shape a) ≠ 2%nat ->
   Timestep.__init__ (PArray a) h = inl ValueError)
  /\ (forall idx, Timestep.__init__ (PIntArray idx) h = inl ValueError)
  /\ (forall r c, valid h a -> shape a = [r; c] -> (3 <= c)%nat ->
      exists ts h' vals,
        Timestep.__init__ (PArray a) h = inr (ts, h')
        /\ constructed h' ts
        /\ shape (_pos ts) = [r; c]
        /\ data (_pos ts) ≠ data a
        /\ h' !! data a = h !! data a
        /\ elements F_order a h = inr (vals, h)
        /\ h' !! data (_pos ts) = Some vals
        /\ forall i j, (i < r)%nat -> (j < c)%nat ->
             address (_pos ts) [i; j] = Z.of_nat i + Z.of_nat j * Z.of_nat r
             /\ peek h' (_pos ts) [i; j] = peek h a [i; j])
  /\ (forall r c, valid h a -> shape a = [r; c] -> (c < 3)%nat ->
      Timestep.__init__ (PArray a) h = inl IndexError).
Proof.
  split; [apply init_matrix_not_2d|]. split; [reflexivity|]. split.
  - intros r c Hvalid Hshape Hc.
    destruct (init_matrix a r c h Hshape Hvalid Hc)
      as (vals & x & y & z & Hel & Hinit).
    set (l1 := fresh (dom h)) in *.
    set (h1 := <[l1 := replicate 6 0%Qc]> h) in *.
    set (l2 := fresh (dom h1)) in *.
    assert (h1 !! data a = h !! data a) as Hagree1.
    { by apply insert_fresh_agree, valid_allocated. }
    assert (valid h1 a) as Hvalid1 by by eapply valid_agree.
    assert (<[l2 := vals]> h1 !! data a = h1 !! data a) as Hagree2.
    { by apply insert_fresh_agree, valid_allocated. }
    destruct (ndarray_copy_spec F_order a h1 Hvalid1)
      as (vals' & Hel' & _ & Hvpos & Hpeek).
    assert (vals' = vals) as ->.
    { apply (elements_agree _ _ h1) in Hel; [congruence|done]. }
    destruct (numpy_zeros_spec [6] C_order h) as (_ & Hvcell & _);
      [repeat constructor; lia|].
    rewrite Hshape in Hvpos. fold l1 h1 in Hvcell. fold l2 in Hvpos.
    eexists _, _, vals. split; [exact Hinit|]. simpl.
    split.
    { split; [by exists r, c|]. split; [done|]. split; [done|]. simpl.
      eapply valid_agree; [|exact Hvcell].
      by apply (insert_fresh_agree h1 vals (packed l1 C_order _)),
               valid_allocated. }
    split; [done|]. split.
    { intros Heq. apply valid_allocated in Hvalid1 as [b Hb].
      rewrite <- Heq in Hb. unfold l2 in Hb. by rewrite alloc_fresh in Hb. }
    split; [congruence|]. split; [done|].
    split; [apply lookup_insert_eq|].
    intros i j Hi Hj. split.
    + unfold address. simpl. rewrite Nat.max_r by lia. lia.
    + rewrite Hshape in Hpeek. fold l2 in Hpeek.
      rewrite Hpeek by by apply in_range_2.
      by apply peek_agree.
  - intros r c Hvalid Hshape Hc. by eapply init_matrix_narrow.
Qed.

Lemma new_from_matrix_shape_witness :
  Timestep.__init__ (PArray vector_6) sample_heap = inl ValueError
  /\ (exists ts h', Timestep.__init__ (PArray matrix_2x3) sample_heap
                    = inr (ts, h')
                    /\ h' !! data (_pos ts)
                       = Some (Qc_of_Z <$> [1; 4; 2; 5; 3; 6]))
  /\ Timestep.__init__ (PArray matrix_3x2) sample_heap = inl IndexError.
Proof.
  split; [|split].
  - apply (new_from_matrix_shape vector_6 sample_heap). simpl. lia.
  - destruct (new_from_matrix_shape matrix_2x3 sample_heap)
      as (_ & _ & Hadopt & _).
    destruct (Hadopt 2%nat 3%nat eq_refl eq_refl ltac:(lia))
      as (ts & h' & vals & Hinit & _ & _ & _ & _ & Hel & Hbuf & _).
    exists ts, h'. split; [exact Hinit|].
    assert (elements F_order matrix_2x3 sample_heap
            = inr (Qc_of_Z <$> [1; 4; 2; 5; 3; 6], sample_heap)) as Hflat
      by (vm_compute; reflexivity).
    rewrite Hbuf. congruence.
  - destruct (new_from_matrix_shape matrix_3x2 sample_heap)
      as (_ & _ & _ & Hnarrow).
    apply (Hnarrow 3%nat 2%nat); [reflexivity|reflexivity|lia].
Defined.

(** ** Writes touch one buffer *)

Lemma ndarray_update_frame g a h h' :
  ndarray_update g a h = inr (tt, h') ->
  forall l, l ≠ data a -> h' !! l = h !! l.
Proof.
  unfold ndarray_update, bind, buffer.
  destruct (h !! data a) as [buf|]; [|done]. simpl.
  destruct (forallb _ _); [|done]. intros [= <-] l Hl.
  by apply lookup_insert_ne.
Qed.

Lemma ndarray_update_ok g a h :
  valid h a -> exists h', ndarray_update g a h = inr (tt, h').
Proof.
  unfold valid, validb, ndarray_update, bind, buffer.
  destruct (h !! data a) as [buf|]; [|done]. simpl.
  intros [_ ->]%andb_prop. eauto.
Qed.

Lemma select_axis_data ax k a h w h' :
  select_axis ax k a h = inr (w, h') -> data w = data a /\ h' = h.
Proof.
  unfold select_axis.
  destruct (shape a !! ax), (strides a !! ax); try done.
  destruct (wrap_index k _); [|done]. unfold ret. by intros [= <- <-].
Qed.

Lemma select_chain_data a idx (m : M ndarray) :
  (forall h w h', m h = inr (w, h') -> data w = data a /\ h' = h) ->
  forall h w h',
    foldl (fun m i => do w <- m; select_axis 0 i w) m idx h = inr (w, h') ->
    data w = data a /\ h' = h.
Proof.
  revert m. induction idx as [|i idx IH]; intros m Hm; [exact Hm|].
  simpl. apply IH. intros h w h' Hsel.
  apply bind_inv in Hsel as (w0 & h0 & Hw0 & Hsel).
  apply Hm in Hw0 as [<- ->].
  by apply select_axis_data in Hsel.
Qed.

Lemma ndarray_assign_frame a vals h h' :
  ndarray_assign a vals h = inr (tt, h') ->
  forall l, l ≠ data a -> h' !! l = h !! l.
Proof.
  unfold ndarray_assign, bind, buffer.
  destruct (h !! data a) as [buf|]; [|done]. simpl.
  destruct (negb _); [done|].
  destruct (forallb _ _); [|done]. intros [= <-] l Hl.
  by apply lookup_insert_ne.
Qed.

Lemma apply_write_frame a w h h' :
  apply_write a w h = inr (tt, h') ->
  forall l, l ≠ data a -> h' !! l = h !! l.
Proof.
  destruct w as [idx v|f|vals]; simpl.
  - unfold ndarray_setitem. intros Hset.
    apply bind_inv in Hset as (w & h0 & Hsel & Hupd).
    apply (select_chain_data a) in Hsel as [<- ->].
    + by eapply ndarray_update_frame.
    + unfold ret. by intros ??? [= <- <-].
  - apply ndarray_update_frame.
  - apply ndarray_assign_frame.
Qed.

(** ** The copy constructor *)

Lemma init_copy ts r c (h : heap) :
  shape (_pos ts) = [r; c] -> (3 <= c)%nat ->
  valid h (_pos ts) -> valid h (_unitcell ts) ->
  exists o1 vals1 o2 vals2 x y z,
    let l1 := fresh (dom h) in
    let h1 := <[l1 := vals1]> h in
    let l2 := fresh (dom h1) in
    let h2 := <[l2 := vals2]> h1 in
    let pos' := packed l2 o2 [r; c] in
    let cell' := packed l1 o1 (shape (_unitcell ts)) in
    Timestep.__init__ (PTimestep ts) h
    = inr ({| frame := frame ts; numatoms := numatoms ts;
              _pos := pos'; _unitcell := cell';
              _x := x; _y := y; _z := z |}, h2)
    /\ valid h2 pos' /\ valid h2 cell'
    /\ (forall idx, in_range idx [r; c] ->
                    peek h2 pos' idx = peek h (_pos ts) idx)
    /\ (forall idx, in_range idx (shape (_unitcell ts)) ->
                    peek h2 cell' idx = peek h (_unitcell ts) idx).
Proof.
  intros Hshape Hc Hvpos Hvcell.
  destruct (numpy_array_spec _ h Hvcell)
    as (o1 & vals1 & Hcell & Hvcell' & Hpcell).
  set (l1 := fresh (dom h)) in *. set (h1 := <[l1 := vals1]> h) in *.
  assert (h1 !! data (_pos ts) = h !! data (_pos ts)) as Hagree1
    by by apply insert_fresh_agree, valid_allocated.
  assert (valid h1 (_pos ts)) as Hvpos1 by by eapply valid_agree.
  destruct (numpy_array_spec _ h1 Hvpos1)
    as (o2 & vals2 & Hpos & Hvpos' & Hppos).
  rewrite Hshape in Hpos, Hvpos', Hppos.
  set (l2 := fresh (dom h1)) in *. set (h2 := <[l2 := vals2]> h1) in *.
  edestruct (init_views (fun x y z =>
     {| frame := frame ts; numatoms := numatoms ts;
        _pos := packed l2 o2 [r; c];
        _unitcell := packed l1 o1 (shape (_unitcell ts));
        _x := x; _y := y; _z := z |}) l2 o2 r c h2)
    as (x & y & z & Hviews); [lia|].
  exists o1, vals1, o2, vals2, x, y, z. simpl. split; [|split; [done|split]].
  - unfold Timestep.__init__.
    rewrite (bind_ok _ _ h (frame ts, numatoms ts, packed l2 o2 [r; c],
               packed l1 o1 (shape (_unitcell ts))) h2); [exact Hviews|].
    rewrite (bind_ok _ _ _ _ _ Hcell), (bind_ok _ _ _ _ _ Hpos). reflexivity.
  - eapply valid_agree; [|exact Hvcell'].
    by apply (insert_fresh_agree h1 vals2 (packed l1 o1 _)), valid_allocated.
  - split.
    + intros idx Hidx. rewrite Hppos by done. by apply peek_agree.
    + intros idx Hidx. rewrite <- Hpcell by done. apply peek_agree.
      by apply (insert_fresh_agree h1 vals2 (packed l1 o1 _)), valid_allocated.
Qed.

Lemma allocated_not_fresh (h : heap) l : is_Some (h !! l) -> l ≠ fresh (dom h).
Proof. intros [b Hb] ->. by rewrite alloc_fresh in Hb. Qed.

Lemma elem_of_arrays a ts :
  a ∈ arrays ts <-> a = _pos ts \/ a = _unitcell ts.
Proof.
  unfold arrays. rewrite !elem_of_cons, elem_of_nil. tauto.
Qed.

Lemma elem_of_buffers l ts :
  l ∈ buffers ts <-> l = data (_pos ts) \/ l = data (_unitcell ts).
Proof.
  unfold buffers, arrays. rewrite !fmap_cons, !elem_of_cons, fmap_nil, elem_of_nil.
  tauto.
Qed.

(** C6: copying a Timestep (by [Timestep(ts)] or, equivalently, [ts.copy()])
    yields one with the same atom count, positions and unit cell as the
    original at copy time, on buffers of its own: a later write through any
    array on a buffer of either Timestep (its position array, its unit cell or
    a view of them) leaves every element read through an array on a buffer of
    the other unchanged. This holds for every Timestep a constructor gives,
    and the copy of a frame is a frame. *)
Theorem copy_is_independent ts h :
  constructed h ts ->
  exists ts' h',
    Timestep.copy ts h = inr (ts', h')
    /\ Timestep.__init__ (PTimestep ts) h = inr (ts', h')
    /\ constructed h' ts'
    /\ (is_frame h ts -> is_frame h' ts')
    /\ Timestep.__len__ ts' = Timestep.__len__ ts
    /\ shape (_pos ts') = shape (_pos ts)
    /\ (forall idx, in_range idx (shape (_pos ts)) ->
          peek h' (_pos ts') idx = peek h (_pos ts) idx)
    /\ (forall k, (k < 6)%nat ->
          peek h' (_unitcell ts') [k] = peek h (_unitcell ts) [k])
    /\ (forall a idx, data a ∈ buffers ts -> peek h' a idx = peek h a idx)
    /\ (forall src dst w h'',
          (data src ∈ buffers ts /\ data dst ∈ buffers ts')
          \/ (data src ∈ buffers ts' /\ data dst ∈ buffers ts) ->
          apply_write src w h' = inr (tt, h'') ->
          forall idx, peek h'' dst idx = peek h' dst idx)
    /\ (forall src f, src ∈ arrays ts ++ arrays ts' ->
          exists h'', apply_write src (Scale f) h' = inr (tt, h'')).
Proof.
  intros ((r & c & Hshape & Hc) & Hcell & Hvpos & Hvcell).
  destruct (init_copy ts r c h Hshape Hc Hvpos Hvcell)
    as (o1 & vals1 & o2 & vals2 & x & y & z & Hinit & Hvpos' & Hvcell'
        & Hppos & Hpcell).
  set (l1 := fresh (dom h)) in *. set (h1 := <[l1 := vals1]> h) in *.
  set (l2 := fresh (dom h1)) in *. set (h2 := <[l2 := vals2]> h1) in *.
  assert (forall l, is_Some (h !! l) -> l ≠ l1 /\ l ≠ l2 /\ h2 !! l = h !! l)
    as Hold.
  { intros l Hl. pose proof (allocated_not_fresh h l Hl) as Hl1.
    assert (h1 !! l = h !! l) as Hh1 by by apply lookup_insert_ne.
    assert (l ≠ l2) as Hl2.
    { apply allocated_not_fresh. by rewrite Hh1. }
    split; [done|]. split; [done|].
    unfold h2. rewrite lookup_insert_ne by done. done. }
  assert (l1 ≠ l2) as Hl12.
  { apply allocated_not_fresh. unfold h1. rewrite lookup_insert_eq. eauto. }
  destruct (Hold _ (valid_allocated _ _ Hvpos)) as (Hp1 & Hp2 & Hpa).
  destruct (Hold _ (valid_allocated _ _ Hvcell)) as (Hc1 & Hc2 & Hca).
  eexists _, h2. split; [exact Hinit|]. split; [exact Hinit|]. simpl.
  split; [|split; [|split; [done|split; [done|split; [|split;
    [|split; [|split]]]]]]].
  - repeat split; simpl; try done. by exists r, c.
  - intros (Hn & Hshape' & _). repeat split; simpl; try done. congruence.
  - intros idx Hidx. apply Hppos. by rewrite <- Hshape.
  - intros k Hk. apply Hpcell. rewrite Hcell. by apply in_range_1.
  - intros a idx [Ha|Ha]%elem_of_buffers; apply peek_agree; by rewrite Ha.
  - intros src dst w h'' Hsd Hw idx. apply peek_agree.
    apply (apply_write_frame _ _ _ _ Hw).
    rewrite !elem_of_buffers in Hsd. simpl in Hsd.
    destruct Hsd as [[[Hs|Hs] [Hd|Hd]]|[[Hs|Hs] [Hd|Hd]]];
      rewrite Hs, Hd; congruence.
  - intros src f Hsrc. simpl. apply ndarray_update_ok.
    rewrite !elem_of_cons, elem_of_arrays in Hsrc. simpl in Hsrc.
    destruct Hsrc as [->|[->|[->| ->]]]; try done;
      by eapply valid_agree.
Qed.

Lemma copy_is_independent_witness :
  exists ts' h',
    Timestep.copy sample_frame frame_heap = inr (ts', h')
    /\ Timestep.__init__ (PTimestep sample_frame) frame_heap = inr (ts', h')
    /\ constructed h' ts'
    /\ (is_frame frame_heap sample_frame -> is_frame h' ts')
    /\ Timestep.__len__ ts' = Timestep.__len__ sample_frame
    /\ shape (_pos ts') = shape (_pos sample_frame)
    /\ (forall idx, in_range idx (shape (_pos sample_frame)) ->
          peek h' (_pos ts') idx = peek frame_heap (_pos sample_frame) idx)
    /\ (forall k, (k < 6)%nat ->
          peek h' (_unitcell ts') [k]
          = peek frame_heap (_unitcell sample_frame) [k])
    /\ (forall a idx, data a ∈ buffers sample_frame ->
          peek h' a idx = peek frame_heap a idx)
    /\ (forall src dst w h'',
          (data src ∈ buffers sample_frame /\ data dst ∈ buffers ts')
          \/ (data src ∈ buffers ts' /\ data dst ∈ buffers sample_frame) ->
          apply_write src w h' = inr (tt, h'') ->
          forall idx, peek h'' dst idx = peek h' dst idx)
    /\ (forall src f, src ∈ arrays sample_frame ++ arrays ts' ->
          exists h'', apply_write src (Scale f) h' = inr (tt, h'')).
Proof.
  apply (copy_is_independent sample_frame frame_heap).
  split; [exists 2%nat, 3%nat; split; [reflexivity|lia]|].
  repeat split; reflexivity.
Defined.

(** ** Indexing a Timestep with an integer *)

Lemma valid_strides_2 h a r c :
  valid h a -> shape a = [r; c] -> exists s0 s1, strides a = [s0; s1].
Proof.
  intros (_ & _ & Hlen & _)%valid_inv Hshape. rewrite Hshape in Hlen.
  destruct (strides a) as [|s0 [|s1 [|]]]; try done. eauto.
Qed.

(** Row [i] of a valid array with three columns: a view whose three elements
    are those of the row. *)
Lemma row_view h a r s0 s1 i :
  valid h a -> shape a = [r; 3%nat] -> strides a = [s0; s1] ->
  (i < r)%nat ->
  let row := {| data := data a; offset := offset a + Z.of_nat i * s0;
                shape := [3%nat]; strides := [s1] |} in
  exists x y z,
    values row h = inr ([x; y; z], h)
    /\ peek h a [i; 0%nat] = Some x
    /\ peek h a [i; 1%nat] = Some y
    /\ peek h a [i; 2%nat] = Some z.
Proof.
  intros (buf & Hbuf & _ & Hall)%valid_inv Hshape Hstrides Hi row.
  rewrite Hshape in Hall.
  destruct (Hall [i; 0%nat]) as [x Hx]; [apply in_range_2; lia|].
  destruct (Hall [i; 1%nat]) as [y Hy]; [apply in_range_2; lia|].
  destruct (Hall [i; 2%nat]) as [z Hz]; [apply in_range_2; lia|].
  exists x, y, z. unfold peek. rewrite Hbuf. simpl.
  split; [|done].
  unfold values, elements, bind, buffer. simpl. rewrite Hbuf. simpl.
  unfold address in *. rewrite Hstrides in *. simpl in *.
  rewrite <- !Z.add_assoc. rewrite Hx, Hy, Hz. reflexivity.
Qed.

Lemma getitem_int_in_range ts h i :
  is_frame h ts -> 0 <= i < numatoms ts ->
  exists row x y z,
    ndarray_getitem (_pos ts) (PInt i) h = inr (PArray row, h)
    /\ data row = data (_pos ts)
    /\ shape row = [3%nat]
    /\ values row h = inr ([x; y; z], h)
    /\ peek h (_pos ts) [Z.to_nat i; 0%nat] = Some x
    /\ peek h (_pos ts) [Z.to_nat i; 1%nat] = Some y
    /\ peek h (_pos ts) [Z.to_nat i; 2%nat] = Some z.
Proof.
  intros (Hn & Hshape & _ & Hvalid & _) Hi.
  destruct (valid_strides_2 _ _ _ _ Hvalid Hshape) as (s0 & s1 & Hs).
  destruct (row_view h (_pos ts) _ s0 s1 (Z.to_nat i) Hvalid Hshape Hs)
    as (x & y & z & Hvals & Hx & Hy & Hz); [lia|].
  rewrite Z2Nat.id in Hvals by lia.
  eexists _, x, y, z. split; [|split; [|split; [|split; [exact Hvals|done]]]].
  - unfold ndarray_getitem.
    rewrite (bind_ok _ _ _ _ _
               (select_row (_pos ts) _ 3%nat s0 s1 i h Hshape Hs ltac:(lia))).
    reflexivity.
  - done.
  - done.
Qed.

(** Indexing by an integer where [numatoms] counts the rows of [_pos]: on a
    Timestep whose position array has shape [(numatoms, 3)], as [Timestep(n)]
    gives and [copy] preserves, an integer [i] in [-n, n-1] selects the
    3-vector at index [i] (for [i >= 0]) or [n + i] (for [i < 0]), as a view
    of the position array; every other integer, [n] and [-n-1] among them,
    raises IndexError. *)
Theorem get_atom_resolves_index ts h i :
  is_frame h ts ->
  let n := Timestep.__len__ ts in
  (- n <= i < n ->
   let i' := if decide (0 <= i) then i else n + i in
   exists row x y z,
     Timestep.__getitem__ ts (PInt i) h = inr (PArray row, h)
     /\ data row = data (_pos ts)
     /\ shape row = [3%nat]
     /\ values row h = inr ([x; y; z], h)
     /\ peek h (_pos ts) [Z.to_nat i'; 0%nat] = Some x
     /\ peek h (_pos ts) [Z.to_nat i'; 1%nat] = Some y
     /\ peek h (_pos ts) [Z.to_nat i'; 2%nat] = Some z)
  /\ (i < - n \/ n <= i ->
      Timestep.__getitem__ ts (PInt i) h = inl IndexError)
  /\ Timestep.__getitem__ ts (PInt n) h = inl IndexError
  /\ Timestep.__getitem__ ts (PInt (- n - 1)) h = inl IndexError.
Proof.
  intros Hframe n.
  assert (0 <= n) as Hn by apply Hframe.
  assert (forall k, k < - n \/ n <= k ->
                    Timestep.__getitem__ ts (PInt k) h = inl IndexError)
    as Hout.
  { intros k Hk. unfold Timestep.__getitem__, Timestep.__len__ in *.
    repeat case_decide; done || lia. }
  split; [|split; [apply Hout|split; apply Hout; lia]].
  intros Hi i'.
  destruct (getitem_int_in_range ts h i' Hframe)
    as (row & x & y & z & Hget & Hrest).
  { unfold i', Timestep.__len__ in *. case_decide; lia. }
  exists row, x, y, z. split; [|exact Hrest].
  rewrite <- Hget. unfold Timestep.__getitem__, i', Timestep.__len__ in *.
  repeat case_decide; try lia; reflexivity.
Qed.

Lemma get_atom_resolves_index_witness :
  (exists row x y z,
     Timestep.__getitem__ sample_frame (PInt (- 1)) frame_heap
     = inr (PArray row, frame_heap)
     /\ data row = data (_pos sample_frame)
     /\ shape row = [3%nat]
     /\ values row frame_heap = inr ([x; y; z], frame_heap)
     /\ peek frame_heap (_pos sample_frame) [1%nat; 0%nat] = Some x
     /\ peek frame_heap (_pos sample_frame) [1%nat; 1%nat] = Some y
     /\ peek frame_heap (_pos sample_frame) [1%nat; 2%nat] = Some z)
  /\ Timestep.__getitem__ sample_frame (PInt 2) frame_heap = inl IndexError
  /\ Timestep.__getitem__ sample_frame (PInt (- 3)) frame_heap
     = inl IndexError.
Proof.
  assert (is_frame frame_heap sample_frame) as Hframe
    by (repeat split; try reflexivity; simpl; lia).
  destruct (get_atom_resolves_index sample_frame frame_heap (- 1) Hframe)
    as (Hin & _ & Hn & Hm).
  split; [apply Hin; simpl; lia|]. split; [exact Hn|exact Hm].
Defined.

(** C4 (defect in the code): [Timestep(arr)] takes [numatoms] from
    [arr.shape[-1]] unless [arr.shape[0]] is 3 (lines 52 and 53, which the
    source itself marks as doubtful), while the atoms are the rows of [_pos].
    For the 2 x 3 matrix [[1, 2, 3], [4, 5, 6]] the constructor returns a
    Timestep of length 3 whose position array has two rows: [ts[1]] is the
    row [4, 5, 6], but [ts[2]] and [ts[-1]], both indices in [-n, n-1], pass
    the bounds test of [__getitem__] and raise IndexError in [self._pos[2]],
    where atom 2 should be returned. *)
Theorem get_atom_adopted_matrix :
  exists ts h',
    Timestep.__init__ (PArray matrix_2x3) sample_heap = inr (ts, h')
    /\ constructed h' ts
    /\ Timestep.__len__ ts = 3
    /\ shape (_pos ts) = [2%nat; 3%nat]
    /\ (exists row,
          Timestep.__getitem__ ts (PInt 1) h' = inr (PArray row, h')
          /\ values row h' = inr (Qc_of_Z <$> [4; 5; 6], h'))
    /\ Timestep.__getitem__ ts (PInt 2) h' = inl IndexError
    /\ Timestep.__getitem__ ts (PInt (- 1)) h' = inl IndexError.
Proof.
  destruct (Timestep.__init__ (PArray matrix_2x3) sample_heap)
    as [e|[ts h']] eqn:Hinit; [by vm_compute in Hinit|].
  exists ts, h'. split; [reflexivity|].
  vm_compute in Hinit. injection Hinit as <- <-.
  split.
  { split; [exists 2%nat, 3%nat; split; [reflexivity|lia]|].
    repeat split; reflexivity. }
  split; [reflexivity|]. split; [reflexivity|].
  split; [|split; reflexivity].
  eexists. split; [reflexivity|]. reflexivity.
Qed.

(** ** Iterating over a Timestep *)

Lemma getitem_atom ts h i :
  is_frame h ts -> 0 <= i < numatoms ts ->
  exists row,
    Timestep.__getitem__ ts (PInt i) h = inr (PArray row, h).
Proof.
  intros Hframe Hi.
  destruct (getitem_int_in_range ts h i Hframe Hi) as (row & _ & _ & _ & H & _).
  exists row. rewrite <- H. unfold Timestep.__getitem__.
  repeat case_decide; try lia; reflexivity.
Qed.

Lemma next_yields ts i h v :
  i < numatoms ts ->
  Timestep.__getitem__ ts (PInt i) h = inr (v, h) ->
  Timestep.iterTS_next {| Timestep.gi_self := ts; Timestep.gi_i := i |} h
  = inr ((Some v, {| Timestep.gi_self := ts; Timestep.gi_i := i + 1 |}), h).
Proof.
  intros Hi Hget. unfold Timestep.iterTS_next.
  cbn [Timestep.gi_self Timestep.gi_i]. case_decide; [|lia].
  by rewrite (bind_ok _ _ _ _ _ Hget).
Qed.

Lemma next_stops ts i h :
  numatoms ts <= i ->
  Timestep.iterTS_next {| Timestep.gi_self := ts; Timestep.gi_i := i |} h
  = inr ((None, {| Timestep.gi_self := ts; Timestep.gi_i := i |}), h).
Proof.
  intros Hi. unfold Timestep.iterTS_next.
  cbn [Timestep.gi_self Timestep.gi_i]. by case_decide; [lia|].
Qed.

(** Draining the generator from position [i]: the [m] remaining atoms, in
    order, then StopIteration; the store is not changed. *)
Lemma iterTS_list_from ts h :
  is_frame h ts ->
  forall (m : nat) (i : Z) (fuel : nat),
    0 <= i -> i + Z.of_nat m = numatoms ts -> (m < fuel)%nat ->
    exists items,
      Timestep.iterTS_list fuel {| Timestep.gi_self := ts; Timestep.gi_i := i |} h
      = inr (Some items, h)
      /\ length items = m
      /\ forall k v, items !! k = Some v ->
           Timestep.__getitem__ ts (PInt (i + Z.of_nat k)) h = inr (v, h).
Proof.
  intros Hframe. induction m as [|m IH]; intros i [|fuel] Hi Hm Hfuel; try lia.
  - exists []. cbn [Timestep.iterTS_list].
    rewrite (bind_ok _ _ _ _ _ (next_stops ts i h ltac:(lia))).
    split; [done|]. split; [done|]. by intros [|].
  - destruct (getitem_atom ts h i Hframe) as (row & Hrow); [lia|].
    destruct (IH (i + 1) fuel) as (items & Hitems & Hlen & Hget); try lia.
    exists (PArray row :: items). split; [|split].
    + cbn [Timestep.iterTS_list].
      rewrite (bind_ok _ _ _ _ _ (next_yields ts i h _ ltac:(lia) Hrow)).
      by rewrite (bind_ok _ _ _ _ _ Hitems).
    + simpl. by rewrite Hlen.
    + intros [|k] v Hk; simpl in Hk.
      * simplify_eq. by rewrite Z.add_0_r.
      * apply Hget in Hk.
        by replace (i + Z.of_nat (S k)) with (i + 1 + Z.of_nat k) by lia.
Qed.

(** Iteration where [numatoms] counts the rows of [_pos]: on a Timestep
    whose position array has shape [(numatoms, 3)], iterating yields exactly
    [n] items, the [k]-th being what [ts[k]] returns, and leaves the store
    as it was; a second iteration started afterwards yields the same
    sequence from the start. *)
Theorem iterate_yields_atoms ts h (fuel : nat) :
  is_frame h ts ->
  (Z.to_nat (Timestep.__len__ ts) < fuel)%nat ->
  exists items,
    Timestep.iterTS_list fuel (Timestep.__iter__ ts) h = inr (Some items, h)
    /\ Z.of_nat (length items) = Timestep.__len__ ts
    /\ (forall k : nat, (k < length items)%nat ->
          exists v, items !! k = Some v
                    /\ Timestep.__getitem__ ts (PInt (Z.of_nat k)) h
                       = inr (v, h))
    /\ (do first <- Timestep.iterTS_list fuel (Timestep.__iter__ ts);
        do second <- Timestep.iterTS_list fuel (Timestep.__iter__ ts);
        ret (first, second)) h
       = inr ((Some items, Some items), h).
Proof.
  intros Hframe Hfuel.
  assert (0 <= numatoms ts) as Hn by apply Hframe.
  destruct (iterTS_list_from ts h Hframe (Z.to_nat (numatoms ts)) 0 fuel)
    as (items & Hitems & Hlen & Hget); [lia|lia|done|].
  exists items. split; [exact Hitems|].
  split; [unfold Timestep.__len__; lia|]. split.
  - intros k Hk. destruct (lookup_lt_is_Some_2 items k Hk) as [v Hv].
    exists v. split; [done|]. by apply Hget in Hv.
  - unfold Timestep.__iter__ in *.
    by rewrite (bind_ok _ _ _ _ _ Hitems), (bind_ok _ _ _ _ _ Hitems).
Qed.

Lemma iterate_yields_atoms_witness :
  exists items,
    Timestep.iterTS_list 3 (Timestep.__iter__ sample_frame) frame_heap
    = inr (Some items, frame_heap)
    /\ Z.of_nat (length items) = Timestep.__len__ sample_frame
    /\ (forall k : nat, (k < length items)%nat ->
          exists v, items !! k = Some v
                    /\ Timestep.__getitem__ sample_frame (PInt (Z.of_nat k))
                         frame_heap
                       = inr (v, frame_heap))
    /\ (do first <- Timestep.iterTS_list 3 (Timestep.__iter__ sample_frame);
        do second <- Timestep.iterTS_list 3 (Timestep.__iter__ sample_frame);
        ret (first, second)) frame_heap
       = inr ((Some items, Some items), frame_heap).
Proof.
  apply (iterate_yields_atoms sample_frame frame_heap 3).
  - repeat split; try reflexivity. simpl. lia.
  - simpl. lia.
Defined.

(** C8 (defect in the code): the generator of [__iter__] runs over
    [xrange(self.numatoms)], and [Timestep(arr)] takes [numatoms] from
    [arr.shape[-1]] unless [arr.shape[0]] is 3 (lines 52 and 53, which the
    source itself marks as doubtful), while [self[i]] reads row [i] of
    [_pos]. For the 2 x 3 matrix [[1, 2, 3], [4, 5, 6]] the Timestep has
    length 3: the first two [next()] calls yield rows 0 and 1, the third
    raises IndexError, so [list(ts)] raises IndexError, whatever the fuel,
    where three items should be yielded. *)
Theorem iterate_adopted_matrix_raises :
  exists ts h',
    Timestep.__init__ (PArray matrix_2x3) sample_heap = inr (ts, h')
    /\ constructed h' ts
    /\ Timestep.__len__ ts = 3
    /\ (exists row0 row1 g,
          Timestep.iterTS_next (Timestep.__iter__ ts) h'
          = inr ((Some (PArray row0),
                  {| Timestep.gi_self := ts; Timestep.gi_i := 1 |}), h')
          /\ Timestep.iterTS_next
               {| Timestep.gi_self := ts; Timestep.gi_i := 1 |} h'
             = inr ((Some (PArray row1), g), h')
          /\ Timestep.iterTS_next g h' = inl IndexError)
    /\ forall fuel : nat,
         Timestep.iterTS_list (3 + fuel) (Timestep.__iter__ ts) h'
         = inl IndexError.
Proof.
  destruct (Timestep.__init__ (PArray matrix_2x3) sample_heap)
    as [e|[ts h']] eqn:Hinit; [by vm_compute in Hinit|].
  exists ts, h'. split; [reflexivity|].
  vm_compute in Hinit. injection Hinit as <- <-.
  split.
  { split; [exists 2%nat, 3%nat; split; [reflexivity|lia]|].
    repeat split; reflexivity. }
  split; [reflexivity|]. split.
  - eexists _, _, _. split; [reflexivity|]. split; reflexivity.
  - intros fuel. reflexivity.
Qed.

(** ** dimensions *)

Lemma values_packed_vector (h : heap) l (vals : list Qc) :
  h !! l = Some vals ->
  length vals = 6%nat ->
  values (packed l C_order [6%nat]) h = inr (vals, h).
Proof.
  intros Hl Hlen.
  destruct vals as [|v0 [|v1 [|v2 [|v3 [|v4 [|v5 [|]]]]]]]; try done.
  unfold values, elements, bind, buffer. simpl. rewrite Hl. reflexivity.
Qed.

Lemma dimensions_spec ts h A alpha B beta gamma C :
  values (_unitcell ts) h = inr ([A; alpha; B; beta; gamma; C], h) ->
  let l := fresh (dom h) in
  let h' := <[l := [A; B; C; alpha; beta; gamma]]> h in
  Timestep.dimensions ts h = inr (packed l C_order [6%nat], h')
  /\ values (packed l C_order [6%nat]) h'
     = inr ([A; B; C; alpha; beta; gamma], h').
Proof.
  intros Hcell l h'. split.
  - unfold Timestep.dimensions, numpy_take.
    rewrite (bind_ok _ _ _ _ _ Hcell). reflexivity.
  - apply values_packed_vector; [apply lookup_insert_eq|done].
Qed.

(** C3: [dimensions] returns the six unit-cell floats of a Timestep, stored
    as [A, alpha, B, beta, gamma, C], in a new array in the order
    [A, B, C, alpha, beta, gamma]; for the stored values [1, 2, 3, 4, 5, 6]
    that is [1, 3, 6, 2, 4, 5]. *)
Theorem dimensions_reorders_unit_cell ts h :
  constructed h ts ->
  (exists A alpha B beta gamma C d h',
     values (_unitcell ts) h = inr ([A; alpha; B; beta; gamma; C], h)
     /\ Timestep.dimensions ts h = inr (d, h')
     /\ values d h' = inr ([A; B; C; alpha; beta; gamma], h'))
  /\ (values (_unitcell ts) h = inr (Qc_of_Z <$> [1; 2; 3; 4; 5; 6], h) ->
      exists d h',
        Timestep.dimensions ts h = inr (d, h')
        /\ values d h' = inr (Qc_of_Z <$> [1; 3; 6; 2; 4; 5], h')).
Proof.
  intros (_ & Hshape & _ & Hvalid). split.
  - destruct (elements_spec C_order h _ Hvalid) as (vals & Hvals & Hlen & _).
    rewrite Hshape in Hlen.
    destruct vals as [|A [|al [|B [|be [|ga [|C [|]]]]]]]; try done.
    destruct (dimensions_spec ts h A al B be ga C Hvals) as [Hdim Hread].
    eexists A, al, B, be, ga, C, _, _. eauto.
  - intros Hvals.
    destruct (dimensions_spec ts h _ _ _ _ _ _ Hvals) as [Hdim Hread].
    eexists _, _. eauto.
Qed.

Lemma dimensions_reorders_unit_cell_witness :
  exists d h',
    Timestep.dimensions sample_frame frame_heap = inr (d, h')
    /\ values d h' = inr (Qc_of_Z <$> [1; 3; 6; 2; 4; 5], h').
Proof.
  assert (constructed frame_heap sample_frame) as Hts.
  { split; [exists 2%nat, 3%nat; split; [reflexivity|lia]|].
    repeat split; reflexivity. }
  apply (dimensions_reorders_unit_cell sample_frame frame_heap Hts).
  reflexivity.
Defined.

(** ** In-place scaling *)

Lemma update_at_length g buf cells :
  length (foldl (update_at g) buf cells) = length buf.
Proof.
  revert buf. induction cells as [|p cells IH]; intros buf; [done|].
  simpl. rewrite IH. apply length_alter.
Qed.

Lemma update_at_comm g1 g2 buf p q :
  (forall v, g1 (g2 v) = g2 (g1 v)) ->
  update_at g1 (update_at g2 buf p) q = update_at g2 (update_at g1 buf q) p.
Proof.
  intros Hcomm. unfold update_at. rewrite list_alter_alter.
  case_decide as Hpq; [|done].
  rewrite Hpq, list_alter_alter_eq. apply list_alter_ext; [|done].
  intros v _. apply Hcomm.
Qed.

Lemma update_at_foldl_comm g1 g2 buf cells q :
  (forall v, g1 (g2 v) = g2 (g1 v)) ->
  update_at g1 (foldl (update_at g2) buf cells) q
  = foldl (update_at g2) (update_at g1 buf q) cells.
Proof.
  intros Hcomm. revert buf.
  induction cells as [|p cells IH]; intros buf; [done|].
  simpl. rewrite IH. f_equal. by apply update_at_comm.
Qed.

Lemma update_at_inverse g1 g2 buf p :
  (forall v, g2 (g1 v) = v) -> update_at g2 (update_at g1 buf p) p = buf.
Proof.
  intros Hinv. unfold update_at. rewrite list_alter_alter_eq.
  apply list_alter_id. intros v. apply Hinv.
Qed.

(** Applying [g1] and then its inverse [g2] along the same cells restores
    the buffer, also when a cell is visited more than once. *)
Lemma update_round_trip g1 g2 buf cells :
  (forall v, g2 (g1 v) = v) -> (forall v, g1 (g2 v) = v) ->
  foldl (update_at g2) (foldl (update_at g1) buf cells) cells = buf.
Proof.
  intros H21 H12. revert buf.
  induction cells as [|p cells IH]; intros buf; [done|].
  simpl. rewrite update_at_foldl_comm by (intros; by rewrite H21, H12).
  rewrite update_at_inverse by done. apply IH.
Qed.

Lemma ndarray_update_spec g a h buf :
  valid h a -> h !! data a = Some buf ->
  ndarray_update g a h
  = inr (tt, <[data a := foldl (update_at g) buf
                           (address a <$> indices_C (shape a))]> h).
Proof.
  unfold valid, validb, ndarray_update, bind, buffer. intros Hv Hbuf.
  rewrite Hbuf in *. simpl. apply andb_prop in Hv as [_ ->]. done.
Qed.

Lemma in_buffer_length buf buf' p :
  length buf' = length buf -> in_buffer buf' p = in_buffer buf p.
Proof. unfold in_buffer. by intros ->. Qed.

Lemma ndarray_update_valid g a h h' :
  valid h a -> ndarray_update g a h = inr (tt, h') -> valid h' a.
Proof.
  intros Hv Hupd. pose proof (valid_allocated _ _ Hv) as [buf Hbuf].
  rewrite (ndarray_update_spec g a h buf Hv Hbuf) in Hupd.
  injection Hupd as <-. unfold valid, validb in *.
  rewrite lookup_insert_eq. rewrite Hbuf in Hv.
  apply andb_prop in Hv as [Hlen Hall].
  apply andb_true_intro. split; [done|].
  rewrite forallb_forall in *. intros p Hp.
  rewrite (in_buffer_length buf) by apply update_at_length. by apply Hall.
Qed.

Lemma imul_round_trip a h f g :
  valid h a -> (f * g = 1)%Qc ->
  exists h1,
    ndarray_imul a f h = inr (tt, h1)
    /\ valid h1 a
    /\ ndarray_imul a g h1 = inr (tt, h).
Proof.
  intros Hv Hfg. pose proof (valid_allocated _ _ Hv) as [buf Hbuf].
  unfold ndarray_imul.
  pose proof (ndarray_update_spec (fun v => v * f)%Qc a h buf Hv Hbuf) as H1.
  eexists. split; [exact H1|].
  pose proof (ndarray_update_valid _ _ _ _ Hv H1) as Hv1.
  split; [exact Hv1|].
  erewrite ndarray_update_spec; [|exact Hv1|apply lookup_insert_eq].
  rewrite insert_insert_eq.
  rewrite update_round_trip.
  - by rewrite insert_id.
  - intros v. by rewrite <- Qcmult_assoc, Hfg, Qcmult_1_r.
  - intros v. by rewrite <- Qcmult_assoc, (Qcmult_comm g f), Hfg, Qcmult_1_r.
Qed.

(** ** IObase: unit conversion *)

Lemma convert_pos_from_native_array core self a h native base f :
  IObase.units self !! "length" = Some native ->
  flags core !! "length_unit" = Some base ->
  get_conversion_factor core "length" native base = inr f ->
  IObase.convert_pos_from_native core self (PArray a) h
  = (exec ndarray_imul a f; ret (PArray a)) h.
Proof.
  intros Hnative Hbase Hf.
  unfold IObase.convert_pos_from_native, dict_get, call_pure, bind at 1 2 3.
  rewrite Hnative. simpl. rewrite Hbase. simpl. rewrite Hf. reflexivity.
Qed.

Lemma convert_pos_to_native_array core self a h native base f :
  IObase.units self !! "length" = Some native ->
  flags core !! "length_unit" = Some base ->
  get_conversion_factor core "length" base native = inr f ->
  IObase.convert_pos_to_native core self (PArray a) h
  = (exec ndarray_imul a f; ret (PArray a)) h.
Proof.
  intros Hnative Hbase Hf.
  unfold IObase.convert_pos_to_native, dict_get, call_pure, bind at 1 2 3.
  rewrite Hbase. simpl. rewrite Hnative. simpl. rewrite Hf. reflexivity.
Qed.

(** From nanometres to Angstrom: every position of the sample frame is
    multiplied by 10, in the frame's own buffer. *)
Example convert_pos_from_native_scales :
  exists h',
    IObase.convert_pos_from_native sample_core sample_stream
      (PArray (_pos sample_frame)) frame_heap
    = inr (PArray (_pos sample_frame), h')
    /\ h' !! data (_pos sample_frame)
       = Some (Qc_of_Z <$> [100; 110; 200; 210; 300; 310]).
Proof.
  eexists. split; [vm_compute; reflexivity|].
  apply (bool_decide_unpack _). vm_compute. exact I.
Qed.

(** C7: when the registry gives a nonzero factor [f] from the native to the
    base length unit and its inverse [/ f] back, converting a position buffer
    from native units and then to native units returns the same buffer with
    every value restored (over exact arithmetic): each conversion returns the
    array it was given, and after the second the store is as before the
    first. *)
Theorem position_round_trip core self a h native base f :
  IObase.units self !! "length" = Some native ->
  flags core !! "length_unit" = Some base ->
  get_conversion_factor core "length" native base = inr f ->
  get_conversion_factor core "length" base native = inr (/ f)%Qc ->
  f ≠ 0%Qc ->
  valid h a ->
  (exists h1,
     IObase.convert_pos_from_native core self (PArray a) h
     = inr (PArray a, h1)
     /\ IObase.convert_pos_to_native core self (PArray a) h1
        = inr (PArray a, h))
  /\ (do x <- IObase.convert_pos_from_native core self (PArray a);
      IObase.convert_pos_to_native core self x) h
     = inr (PArray a, h).
Proof.
  intros Hnative Hbase Hf Hinv Hf0 Hvalid.
  destruct (imul_round_trip a h f (/ f)%Qc Hvalid) as (h1 & Hfrom & _ & Hto).
  { by apply Qcmult_inv_r. }
  assert (IObase.convert_pos_from_native core self (PArray a) h
          = inr (PArray a, h1)) as Hfrom'.
  { erewrite convert_pos_from_native_array by done.
    by rewrite (bind_ok _ _ _ _ _ Hfrom). }
  assert (IObase.convert_pos_to_native core self (PArray a) h1
          = inr (PArray a, h)) as Hto'.
  { erewrite convert_pos_to_native_array by done.
    by rewrite (bind_ok _ _ _ _ _ Hto). }
  split; [by exists h1|].
  by rewrite (bind_ok _ _ _ _ _ Hfrom').
Qed.

Lemma position_round_trip_witness :
  (exists h1,
     IObase.convert_pos_from_native sample_core sample_stream
       (PArray (_pos sample_frame)) frame_heap
     = inr (PArray (_pos sample_frame), h1)
     /\ IObase.convert_pos_to_native sample_core sample_stream
          (PArray (_pos sample_frame)) h1
        = inr (PArray (_pos sample_frame), frame_heap))
  /\ (do x <- IObase.convert_pos_from_native sample_core sample_stream
                (PArray (_pos sample_frame));
      IObase.convert_pos_to_native sample_core sample_stream x) frame_heap
     = inr (PArray (_pos sample_frame), frame_heap).
Proof.
  apply (position_round_trip sample_core sample_stream (_pos sample_frame)
           frame_heap (Some "nm") (Some "Angstrom") (Qc_of_Z 10)).
  - reflexivity.
  - reflexivity.
  - vm_compute; f_equal; apply Qc_is_canon; reflexivity.
  - vm_compute; f_equal; apply Qc_is_canon; reflexivity.
  - discriminate.
  - reflexivity.
Defined.

(** C1 (defect in the code): the class body binds the name
    [convert_time_from_native] twice, so the class has no
    [convert_time_to_native], and [convert_time_from_native] is the second
    definition, which scales by the factor from the base unit to the native
    unit. With femtoseconds as native and picoseconds as base unit,
    [convert_time_from_native(1000.0)] returns 1000000 where the definition
    at line 107 gives 1. *)
Theorem time_conversion_overridden core :
  IObase.namespace core !! "convert_time_to_native" = None
  /\ IObase.namespace core !! "convert_time_from_native"
     = Some (IObase.unary (IObase.convert_time_from_native' core))
  /\ (forall self args h,
        IObase.call core "convert_time_to_native" self args h
        = inl AttributeError)
  /\ IObase.call sample_core "convert_time_from_native" sample_stream
       [PFloat (Qc_of_Z 1000)] ∅
     = inr (PFloat (Qc_of_Z 1000000), ∅)
  /\ IObase.convert_time_from_native sample_core sample_stream
       (PFloat (Qc_of_Z 1000)) ∅
     = inr (PFloat 1%Qc, ∅).
Proof.
  split; [reflexivity|]. split; [reflexivity|]. split; [|split].
  - intros self args h. reflexivity.
  - vm_compute; do 3 f_equal; apply Qc_is_canon; reflexivity.
  - vm_compute; do 3 f_equal; apply Qc_is_canon; reflexivity.
Qed.

(** ** Slices *)





(** ** Index arrays *)











(** * Further properties *)

(** ** Distinct cells *)

Lemma indices_C_NoDup shp : NoDup (indices_C shp).
Proof.
  induction shp as [|d rest IH]; simpl; [apply NoDup_singleton|].
  apply NoDup_bind.
  - intros i1 i2 idx _ _ (idx1 & -> & _)%list_elem_of_fmap
                        (idx2 & Heq & _)%list_elem_of_fmap.
    congruence.
  - intros i _. apply NoDup_fmap_2; [|done]. by intros ?? [=].
  - apply NoDup_seq.
Qed.

Lemma packed_distinct l o shp : distinct_cells (packed l o shp).
Proof.
  unfold distinct_cells, cells. simpl.
  apply NoDup_fmap_2_strong; [|apply indices_C_NoDup].
  intros idx1 idx2 H1%(indices_in_range C_order) H2%(indices_in_range C_order).
  unfold address. simpl. intros Heq.
  destruct (position o shp idx1 H1) as (k1 & Hk1 & Hl1).
  destruct (position o shp idx2 H2) as (k2 & Hk2 & Hl2).
  assert (k1 = k2) as -> by lia. congruence.
Qed.

(** ** Element-wise effect of an in-place update *)

Lemma update_at_lookup g buf (cs : list Z) (p : Z) :
  NoDup cs -> Forall (fun c => 0 <= c) cs -> 0 <= p ->
  foldl (update_at g) buf cs !! Z.to_nat p
  = if decide (p ∈ cs) then g <$> buf !! Z.to_nat p else buf !! Z.to_nat p.
Proof.
  intros Hnodup Hpos Hp. revert buf.
  induction cs as [|c cs IH]; intros buf.
  { case_decide as Hin; [by apply elem_of_nil in Hin|done]. }
  apply list.NoDup_cons in Hnodup as [Hc Hnodup].
  apply list.Forall_cons in Hpos as [Hc0 Hpos].
  cbn [foldl]. rewrite IH by done. unfold update_at.
  destruct (decide (p = c)) as [->|Hne].
  - rewrite (decide_False (P := c ∈ cs)) by done.
    rewrite (decide_True (P := c ∈ c :: cs)) by (apply elem_of_cons; auto).
    apply list_lookup_alter_eq.
  - assert (Z.to_nat c ≠ Z.to_nat p) as Hne' by lia.
    rewrite list_lookup_alter_ne by done.
    destruct (decide (p ∈ cs)) as [Hin|Hnin].
    + rewrite decide_True; [done|]. apply elem_of_cons; auto.
    + rewrite decide_False; [done|].
      intros [?|?]%elem_of_cons; done.
Qed.

Lemma valid_cells h a buf :
  valid h a -> h !! data a = Some buf ->
  Forall (fun c => 0 <= c < Z.of_nat (length buf)) (cells a).
Proof.
  unfold valid, validb. intros Hv Hbuf. rewrite Hbuf in Hv.
  apply andb_prop in Hv as [_ Hall]. rewrite forallb_forall in Hall.
  apply list.Forall_forall. intros c Hc%list_elem_of_In.
  apply Hall in Hc. unfold in_buffer in Hc.
  by apply bool_decide_eq_true in Hc.
Qed.

(** On an array without self-overlap, [ndarray_update g] replaces every
    element [v] by [g v] and changes nothing else. *)
Lemma ndarray_update_elements g a h :
  valid h a -> distinct_cells a ->
  exists h',
    ndarray_update g a h = inr (tt, h')
    /\ valid h' a
    /\ (forall idx, in_range idx (shape a) ->
                    peek h' a idx = g <$> peek h a idx)
    /\ (forall l, l ≠ data a -> h' !! l = h !! l).
Proof.
  intros Hv Hd. pose proof (valid_allocated _ _ Hv) as [buf Hbuf].
  pose proof (ndarray_update_spec g a h buf Hv Hbuf) as Hupd.
  eexists. split; [exact Hupd|]. split; [|split].
  - by eapply ndarray_update_valid.
  - intros idx Hidx.
    destruct (valid_inv h a Hv) as (buf' & Hbuf' & _ & Hall).
    assert (buf' = buf) as -> by congruence.
    destruct (Hall idx Hidx) as [v Hv'].
    unfold load in Hv'. case_decide as Hp; [|done].
    unfold peek. rewrite lookup_insert_eq, Hbuf. simpl.
    unfold load. rewrite !decide_True by done.
    fold (cells a). rewrite update_at_lookup; [|done| |done].
    + rewrite decide_True; [done|].
      apply list_elem_of_fmap_2. by apply (indices_in_range C_order).
    + eapply list.Forall_impl; [by eapply valid_cells|]. simpl. intros; lia.
  - intros l Hl. by apply lookup_insert_ne.
Qed.

(** ** IObase: what the conversions do to their argument *)

Section conversions.
Variables (core : Core) (self : IObase.self_t).

(** With the units known and the registry answering [f], each conversion is
    [x *= f; return x]. *)
Lemma convert_pos_from_native_factor x h native base f :
  IObase.units self !! "length" = Some native ->
  flags core !! "length_unit" = Some base ->
  get_conversion_factor core "length" native base = inr f ->
  IObase.convert_pos_from_native core self x h = imul x f h.
Proof.
  intros Hnative Hbase Hf.
  unfold IObase.convert_pos_from_native, dict_get, call_pure, bind at 1 2 3.
  rewrite Hnative. simpl. rewrite Hbase. simpl. by rewrite Hf.
Qed.

Lemma convert_pos_to_native_factor x h native base f :
  IObase.units self !! "length" = Some native ->
  flags core !! "length_unit" = Some base ->
  get_conversion_factor core "length" base native = inr f ->
  IObase.convert_pos_to_native core self x h = imul x f h.
Proof.
  intros Hnative Hbase Hf.
  unfold IObase.convert_pos_to_native, dict_get, call_pure, bind at 1 2 3.
  rewrite Hbase. simpl. rewrite Hnative. simpl. by rewrite Hf.
Qed.

Lemma convert_time_factor x h native base f :
  IObase.units self !! "time" = Some native ->
  flags core !! "time_unit" = Some base ->
  get_conversion_factor core "time" base native = inr f ->
  IObase.call core "convert_time_from_native" self [x] h = imul x f h.
Proof.
  intros Hnative Hbase Hf.
  change (IObase.call core "convert_time_from_native" self [x] h)
    with (IObase.convert_time_from_native' core self x h).
  unfold IObase.convert_time_from_native', dict_get, call_pure, bind at 1 2 3.
  rewrite Hbase. simpl. rewrite Hnative. simpl. by rewrite Hf.
Qed.

End conversions.

Lemma imul_array_elements a f h :
  valid h a -> distinct_cells a ->
  exists h',
    imul (PArray a) f h = inr (PArray a, h')
    /\ valid h' a
    /\ (forall idx, in_range idx (shape a) ->
          peek h' a idx = (fun v => v * f)%Qc <$> peek h a idx)
    /\ (forall l, l ≠ data a -> h' !! l = h !! l).
Proof.
  intros Hv Hd.
  destruct (ndarray_update_elements (fun v => v * f)%Qc a h Hv Hd)
    as (h' & Hupd & Hrest).
  exists h'. split; [|exact Hrest].
  unfold imul, ndarray_imul. by rewrite (bind_ok _ _ _ _ _ Hupd).
Qed.

(** X10: on a position array without self-overlap, [convert_pos_from_native]
    multiplies every element by the native-to-base factor and
    [convert_pos_to_native] by the base-to-native factor; each works in the
    array's own buffer, returns the array it was given and changes no other
    buffer. *)
Theorem position_conversion_scales_elements core self a h native base f g :
  IObase.units self !! "length" = Some native ->
  flags core !! "length_unit" = Some base ->
  get_conversion_factor core "length" native base = inr f ->
  get_conversion_factor core "length" base native = inr g ->
  valid h a -> distinct_cells a ->
  (exists h',
     IObase.convert_pos_from_native core self (PArray a) h
     = inr (PArray a, h')
     /\ valid h' a
     /\ (forall idx, in_range idx (shape a) ->
           peek h' a idx = (fun v => v * f)%Qc <$> peek h a idx)
     /\ (forall l, l ≠ data a -> h' !! l = h !! l))
  /\ (exists h',
        IObase.convert_pos_to_native core self (PArray a) h
        = inr (PArray a, h')
        /\ valid h' a
        /\ (forall idx, in_range idx (shape a) ->
              peek h' a idx = (fun v => v * g)%Qc <$> peek h a idx)
        /\ (forall l, l ≠ data a -> h' !! l = h !! l)).
Proof.
  intros Hnative Hbase Hf Hg Hv Hd. split.
  - rewrite (convert_pos_from_native_factor _ _ _ _ _ _ _ Hnative Hbase Hf).
    by apply imul_array_elements.
  - rewrite (convert_pos_to_native_factor _ _ _ _ _ _ _ Hnative Hbase Hg).
    by apply imul_array_elements.
Qed.

Lemma position_conversion_scales_elements_witness :
  (exists h',
     IObase.convert_pos_from_native sample_core sample_stream
       (PArray (_pos sample_frame)) frame_heap
     = inr (PArray (_pos sample_frame), h')
     /\ valid h' (_pos sample_frame)
     /\ (forall idx, in_range idx (shape (_pos sample_frame)) ->
           peek h' (_pos sample_frame) idx
           = (fun v => v * Qc_of_Z 10)%Qc
               <$> peek frame_heap (_pos sample_frame) idx)
     /\ (forall l, l ≠ data (_pos sample_frame) ->
           h' !! l = frame_heap !! l))
  /\ (exists h',
        IObase.convert_pos_to_native sample_core sample_stream
          (PArray (_pos sample_frame)) frame_heap
        = inr (PArray (_pos sample_frame), h')
        /\ valid h' (_pos sample_frame)
        /\ (forall idx, in_range idx (shape (_pos sample_frame)) ->
              peek h' (_pos sample_frame) idx
              = (fun v => v * / Qc_of_Z 10)%Qc
                  <$> peek frame_heap (_pos sample_frame) idx)
        /\ (forall l, l ≠ data (_pos sample_frame) ->
              h' !! l = frame_heap !! l)).
Proof.
  apply (position_conversion_scales_elements sample_core sample_stream
           (_pos sample_frame) frame_heap (Some "nm") (Some "Angstrom")).
  - reflexivity.
  - reflexivity.
  - vm_compute; f_equal; apply Qc_is_canon; reflexivity.
  - vm_compute; f_equal; apply Qc_is_canon; reflexivity.
  - reflexivity.
  - apply (bool_decide_unpack _). vm_compute. exact I.
Defined.

(** ** IObase: conversions compose *)

Lemma update_at_ext g1 g2 buf cs :
  (forall v, g1 v = g2 v) ->
  foldl (update_at g1) buf cs = foldl (update_at g2) buf cs.
Proof.
  intros Hext. revert buf. induction cs as [|c cs IH]; intros buf; [done|].
  simpl. rewrite IH. f_equal. unfold update_at.
  apply list_alter_ext; [|done]. intros v _. apply Hext.
Qed.

Lemma update_compose g1 g2 buf cs :
  (forall v, g1 (g2 v) = g2 (g1 v)) ->
  foldl (update_at g2) (foldl (update_at g1) buf cs) cs
  = foldl (update_at (g2 ∘ g1)) buf cs.
Proof.
  intros Hcomm. revert buf.
  induction cs as [|c cs IH]; intros buf; [done|].
  simpl. rewrite update_at_foldl_comm by (intros; by rewrite Hcomm).
  rewrite IH. f_equal. unfold update_at. apply list_alter_alter_eq.
Qed.

(** Scaling by [f] and then by [g] is scaling by [f * g], also on an array
    that overlaps itself. *)
Lemma imul_compose a h f g :
  valid h a ->
  exists h1 h2,
    ndarray_imul a f h = inr (tt, h1)
    /\ valid h1 a
    /\ ndarray_imul a g h1 = inr (tt, h2)
    /\ ndarray_imul a (f * g)%Qc h = inr (tt, h2).
Proof.
  intros Hv. pose proof (valid_allocated _ _ Hv) as [buf Hbuf].
  unfold ndarray_imul.
  pose proof (ndarray_update_spec (fun v => v * f)%Qc a h buf Hv Hbuf) as H1.
  pose proof (ndarray_update_valid _ _ _ _ Hv H1) as Hv1.
  eexists _, _. split; [exact H1|]. split; [exact Hv1|]. split.
  - apply ndarray_update_spec; [exact Hv1|apply lookup_insert_eq].
  - rewrite (ndarray_update_spec _ a h buf Hv Hbuf). do 2 f_equal.
    rewrite insert_insert_eq. f_equal.
    rewrite update_compose.
    + apply update_at_ext. intros v. simpl. by rewrite Qcmult_assoc.
    + intros v. rewrite <- !Qcmult_assoc. f_equal. apply Qcmult_comm.
Qed.

(** X11: in exact arithmetic (the elements taken as rationals, the rounding
    of float32 products left out), the two position conversions compose to
    one scaling. Applied one after the other, in either order, to a valid
    array, both calls succeed and return the array they were given, and they
    leave the store that a single in-place multiplication by the exact
    product of the two factors leaves; when that product is 1, both orders
    leave the store as it was. *)
Theorem position_conversions_compose core self a h native base f g :
  IObase.units self !! "length" = Some native ->
  flags core !! "length_unit" = Some base ->
  get_conversion_factor core "length" native base = inr f ->
  get_conversion_factor core "length" base native = inr g ->
  valid h a ->
  exists h',
    ndarray_imul a (f * g)%Qc h = inr (tt, h')
    /\ (do x <- IObase.convert_pos_from_native core self (PArray a);
        IObase.convert_pos_to_native core self x) h
       = inr (PArray a, h')
    /\ (do x <- IObase.convert_pos_to_native core self (PArray a);
        IObase.convert_pos_from_native core self x) h
       = inr (PArray a, h')
    /\ ((f * g = 1)%Qc -> h' = h).
Proof.
  intros Hnative Hbase Hf Hg Hv.
  destruct (imul_compose a h f g Hv) as (h1 & h2 & Hf1 & Hv1 & Hg1 & Hfg).
  destruct (imul_compose a h g f Hv) as (k1 & k2 & Hg2 & Hw1 & Hf2 & Hgf).
  rewrite (Qcmult_comm g f), Hfg in Hgf. injection Hgf as <-.
  exists h2. split; [exact Hfg|]. split; [|split].
  - erewrite bind_ok; cycle 1.
    { rewrite (convert_pos_from_native_factor _ _ _ _ _ _ _ Hnative Hbase Hf).
      unfold imul. by rewrite (bind_ok _ _ _ _ _ Hf1). }
    rewrite (convert_pos_to_native_factor _ _ _ _ _ _ _ Hnative Hbase Hg).
    unfold imul. by rewrite (bind_ok _ _ _ _ _ Hg1).
  - erewrite bind_ok; cycle 1.
    { rewrite (convert_pos_to_native_factor _ _ _ _ _ _ _ Hnative Hbase Hg).
      unfold imul. by rewrite (bind_ok _ _ _ _ _ Hg2). }
    rewrite (convert_pos_from_native_factor _ _ _ _ _ _ _ Hnative Hbase Hf).
    unfold imul. by rewrite (bind_ok _ _ _ _ _ Hf2).
  - intros Hone.
    destruct (imul_round_trip a h f g Hv Hone) as (h1' & Hf1' & _ & Hback).
    congruence.
Qed.

Lemma position_conversions_compose_witness :
  exists h',
    ndarray_imul (_pos sample_frame) (Qc_of_Z 10 * / Qc_of_Z 10)%Qc frame_heap
    = inr (tt, h')
    /\ (do x <- IObase.convert_pos_from_native sample_core sample_stream
                  (PArray (_pos sample_frame));
        IObase.convert_pos_to_native sample_core sample_stream x) frame_heap
       = inr (PArray (_pos sample_frame), h')
    /\ (do x <- IObase.convert_pos_to_native sample_core sample_stream
                  (PArray (_pos sample_frame));
        IObase.convert_pos_from_native sample_core sample_stream x) frame_heap
       = inr (PArray (_pos sample_frame), h')
    /\ ((Qc_of_Z 10 * / Qc_of_Z 10 = 1)%Qc -> h' = frame_heap).
Proof.
  apply (position_conversions_compose sample_core sample_stream
           (_pos sample_frame) frame_heap (Some "nm") (Some "Angstrom")).
  - reflexivity.
  - reflexivity.
  - vm_compute; f_equal; apply Qc_is_canon; reflexivity.
  - vm_compute; f_equal; apply Qc_is_canon; reflexivity.
  - reflexivity.
Defined.

(** ** IObase: numbers, other values and failing lookups *)

(** X12: [convert_time_from_native], as the class exposes it, does not work in
    place on a number: for a float [t] it returns the new float [t * g], [g]
    being the factor from the base to the native time unit, for an int [n]
    the float [n * g], and the store is left as it was; for None, a string, a
    slice or a Timestep it raises TypeError. *)
Theorem time_conversion_of_numbers core self native base g h :
  IObase.units self !! "time" = Some native ->
  flags core !! "time_unit" = Some base ->
  get_conversion_factor core "time" base native = inr g ->
  (forall t, IObase.call core "convert_time_from_native" self [PFloat t] h
             = inr (PFloat (t * g)%Qc, h))
  /\ (forall n, IObase.call core "convert_time_from_native" self [PInt n] h
                = inr (PFloat (Qc_of_Z n * g)%Qc, h))
  /\ (forall x,
        match x with
        | PNone | PStr _ | PSlice _ _ _ | PTimestep _ => True
        | _ => False
        end ->
        IObase.call core "convert_time_from_native" self [x] h
        = inl TypeError).
Proof.
  intros Hnative Hbase Hg. repeat split.
  - intros t. by rewrite (convert_time_factor _ _ _ _ _ _ _ Hnative Hbase Hg).
  - intros n. by rewrite (convert_time_factor _ _ _ _ _ _ _ Hnative Hbase Hg).
  - intros x Hx.
    rewrite (convert_time_factor _ _ _ _ _ _ _ Hnative Hbase Hg).
    by destruct x.
Qed.

Lemma time_conversion_of_numbers_witness :
  (forall t, IObase.call sample_core "convert_time_from_native" sample_stream
               [PFloat t] ∅
             = inr (PFloat (t * Qc_of_Z 1000)%Qc, ∅))
  /\ (forall n, IObase.call sample_core "convert_time_from_native"
                  sample_stream [PInt n] ∅
                = inr (PFloat (Qc_of_Z n * Qc_of_Z 1000)%Qc, ∅))
  /\ (forall x,
        match x with
        | PNone | PStr _ | PSlice _ _ _ | PTimestep _ => True
        | _ => False
        end ->
        IObase.call sample_core "convert_time_from_native" sample_stream [x] ∅
        = inl TypeError).
Proof.
  apply (time_conversion_of_numbers sample_core sample_stream
           (Some "fs") (Some "ps")).
  - reflexivity.
  - reflexivity.
  - vm_compute; f_equal; apply Qc_is_canon; reflexivity.
Defined.

(** X13: a conversion fails before it looks at its argument when a unit is
    not configured: if the stream's [units] has no entry for the quantity, or
    the flags have no base unit for it, the call raises KeyError; and an
    error of the registry's factor lookup is the error of the conversion. *)
Theorem conversion_lookup_errors core self x h :
  (IObase.units self !! "length" = None
   \/ flags core !! "length_unit" = None ->
   IObase.convert_pos_from_native core self x h = inl KeyError
   /\ IObase.convert_pos_to_native core self x h = inl KeyError)
  /\ (IObase.units self !! "time" = None
      \/ flags core !! "time_unit" = None ->
      IObase.call core "convert_time_from_native" self [x] h = inl KeyError)
  /\ (forall native base e,
        IObase.units self !! "length" = Some native ->
        flags core !! "length_unit" = Some base ->
        (get_conversion_factor core "length" native base = inl e ->
         IObase.convert_pos_from_native core self x h = inl e)
        /\ (get_conversion_factor core "length" base native = inl e ->
            IObase.convert_pos_to_native core self x h = inl e))
  /\ (forall native base e,
        IObase.units self !! "time" = Some native ->
        flags core !! "time_unit" = Some base ->
        get_conversion_factor core "time" base native = inl e ->
        IObase.call core "convert_time_from_native" self [x] h = inl e).
Proof.
  split; [|split; [|split]].
  - intros Hmiss.
    unfold IObase.convert_pos_from_native, IObase.convert_pos_to_native,
      dict_get, bind.
    destruct (IObase.units self !! "length") as [native|],
             (flags core !! "length_unit") as [base|];
      simpl; try done; by destruct Hmiss.
  - intros Hmiss.
    change (IObase.call core "convert_time_from_native" self [x] h)
      with (IObase.convert_time_from_native' core self x h).
    unfold IObase.convert_time_from_native', dict_get, bind.
    destruct (IObase.units self !! "time") as [native|],
             (flags core !! "time_unit") as [base|];
      simpl; try done; by destruct Hmiss.
  - intros native base e Hnative Hbase. split; intros He.
    + unfold IObase.convert_pos_from_native, dict_get, call_pure, bind.
      rewrite Hnative. simpl. rewrite Hbase. simpl. by rewrite He.
    + unfold IObase.convert_pos_to_native, dict_get, call_pure, bind.
      rewrite Hbase. simpl. rewrite Hnative. simpl. by rewrite He.
  - intros native base e Hnative Hbase He.
    change (IObase.call core "convert_time_from_native" self [x] h)
      with (IObase.convert_time_from_native' core self x h).
    unfold IObase.convert_time_from_native', dict_get, call_pure, bind.
    rewrite Hbase. simpl. rewrite Hnative. simpl. by rewrite He.
Qed.

Lemma conversion_lookup_errors_witness :
  IObase.convert_pos_from_native sample_core (IObase.mk_self ∅)
    (PArray (_pos sample_frame)) frame_heap = inl KeyError
  /\ IObase.convert_pos_to_native sample_core (IObase.mk_self ∅)
       (PArray (_pos sample_frame)) frame_heap = inl KeyError
  /\ IObase.convert_pos_from_native sample_core
       (IObase.mk_self IObase.default_units)
       (PArray (_pos sample_frame)) frame_heap = inl KeyError.
Proof.
  split; [|split].
  - apply (conversion_lookup_errors sample_core (IObase.mk_self ∅)).
    left. reflexivity.
  - apply (conversion_lookup_errors sample_core (IObase.mk_self ∅)).
    left. reflexivity.
  - destruct (conversion_lookup_errors sample_core
                (IObase.mk_self IObase.default_units)
                (PArray (_pos sample_frame)) frame_heap)
      as (_ & _ & Hreg & _).
    apply (Hreg None (Some "Angstrom") KeyError); reflexivity.
Defined.

(** ** The constructor, all branches *)

Lemma two_allocs (h : heap) (b1 b2 : list Qc) :
  let l1 := fresh (dom h) in
  let h1 := <[l1 := b1]> h in
  let l2 := fresh (dom h1) in
  let h2 := <[l2 := b2]> h1 in
  h !! l1 = None /\ h !! l2 = None /\ l1 ≠ l2
  /\ h2 !! l1 = Some b1 /\ h2 !! l2 = Some b2
  /\ (forall l, is_Some (h !! l) -> h2 !! l = h !! l).
Proof.
  intros l1 h1 l2 h2.
  assert (h1 !! l1 = Some b1) as H11 by apply lookup_insert_eq.
  assert (l1 ≠ l2) as Hne by (apply allocated_not_fresh; eauto).
  assert (h1 !! l2 = None) as H12 by apply alloc_fresh.
  split; [apply alloc_fresh|]. split.
  { unfold h1 in H12. by rewrite lookup_insert_ne in H12. }
  split; [done|]. split.
  { unfold h2. by rewrite lookup_insert_ne. }
  split; [apply lookup_insert_eq|].
  intros l Hl. pose proof (allocated_not_fresh h l Hl) as Hl1.
  assert (h1 !! l = h !! l) as Hh1 by by apply lookup_insert_ne.
  unfold h2. rewrite lookup_insert_ne; [done|].
  symmetry. apply allocated_not_fresh. by rewrite Hh1.
Qed.

(** Two packed arrays on two successive allocations make a [built]
    Timestep. *)
Lemma packed_pair_built (h : heap) b1 b2 o1 o2 shp1 shp2 ts :
  let l1 := fresh (dom h) in
  let h1 := <[l1 := b1]> h in
  let l2 := fresh (dom h1) in
  let h2 := <[l2 := b2]> h1 in
  (_pos ts = packed l1 o1 shp1 /\ _unitcell ts = packed l2 o2 shp2
   \/ _pos ts = packed l2 o2 shp2 /\ _unitcell ts = packed l1 o1 shp1) ->
  valid h2 (_pos ts) -> valid h2 (_unitcell ts) ->
  (exists r c, shape (_pos ts) = [r; c] /\ (3 <= c)%nat) ->
  shape (_unitcell ts) = [6%nat] ->
  built h ts h2.
Proof.
  intros l1 h1 l2 h2 Harr Hv1 Hv2 Hpos Hcell.
  destruct (two_allocs h b1 b2) as (Hl1 & Hl2 & Hne & H21 & H22 & Hold).
  fold l1 h1 l2 h2 in Hl1, Hl2, Hne, H21, H22, Hold.
  destruct Harr as [[Hp Hc]|[Hp Hc]]; unfold built, constructed;
    rewrite Hp, Hc in *; simpl; repeat split;
      try done; try apply packed_distinct; by try congruence.
Qed.

Lemma packed_pair_valid (h : heap) b1 b2 o1 o2 shp1 shp2 :
  let l1 := fresh (dom h) in
  let h1 := <[l1 := b1]> h in
  let l2 := fresh (dom h1) in
  let h2 := <[l2 := b2]> h1 in
  length b1 = size shp1 -> length b2 = size shp2 ->
  valid h2 (packed l1 o1 shp1) /\ valid h2 (packed l2 o2 shp2).
Proof.
  intros l1 h1 l2 h2 Hb1 Hb2.
  destruct (two_allocs h b1 b2) as (_ & _ & _ & H21 & H22 & _).
  split; by eapply packed_valid.
Qed.

Lemma elements_length o a h vals :
  valid h a -> elements o a h = inr (vals, h) -> length vals = size (shape a).
Proof.
  intros Hv Hel. destruct (elements_spec o h a Hv) as (vals' & Hel' & Hlen & _).
  congruence.
Qed.

Lemma numpy_array_elements a (h : heap) :
  valid h a ->
  exists o vals,
    numpy_array a h
    = inr (packed (fresh (dom h)) o (shape a), <[fresh (dom h) := vals]> h)
    /\ length vals = size (shape a).
Proof.
  intros Hv. unfold numpy_array.
  destruct (is_f_contiguous a && negb (is_c_contiguous a)).
  - destruct (ndarray_copy_spec F_order a h Hv) as (vals & Hel & Hcopy & _).
    exists F_order, vals. split; [exact Hcopy|]. by eapply elements_length.
  - destruct (ndarray_copy_spec C_order a h Hv) as (vals & Hel & Hcopy & _).
    exists C_order, vals. split; [exact Hcopy|]. by eapply elements_length.
Qed.

Lemma init_accepted arg h :
  well_formed h arg -> accepted arg ->
  exists ts h', Timestep.__init__ arg h = inr (ts, h') /\ built h ts h'.
Proof.
  intros Hwf Hacc. destruct arg as [|n|?|?|???|a|?|other]; try done; simpl in *.
  - destruct (init_int n h Hacc) as (x & y & z & Hinit).
    eexists _, _. split; [exact Hinit|].
    destruct (packed_pair_valid h (replicate (size [Z.to_nat n; 3%nat]) 0%Qc)
                (replicate 6 0%Qc) F_order C_order [Z.to_nat n; 3%nat] [6%nat])
      as [Hv1 Hv2]; [by rewrite length_replicate..|].
    eapply packed_pair_built; simpl; [by left|done|done| |done].
    eexists _, _. split; [done|lia].
  - destruct Hacc as (r & c & Hshape & Hc).
    destruct (init_matrix a r c h Hshape Hwf Hc)
      as (vals & x & y & z & Hel & Hinit).
    eexists _, _. split; [exact Hinit|].
    destruct (packed_pair_valid h (replicate 6 0%Qc) vals C_order F_order
                [6%nat] [r; c]) as [Hv1 Hv2].
    { by rewrite length_replicate. }
    { rewrite <- Hshape. by eapply elements_length. }
    eapply packed_pair_built; simpl; [by right|done|done| |done].
    by exists r, c.
  - destruct Hwf as ((r & c & Hshape & Hc) & Hcell & Hvpos & Hvcell).
    destruct (init_copy other r c h Hshape Hc Hvpos Hvcell)
      as (o1 & vals1 & o2 & vals2 & x & y & z & Hinit & Hv1 & Hv2 & _).
    eexists _, _. split; [exact Hinit|].
    eapply packed_pair_built; simpl; [by right|done|done| |done].
    by exists r, c.
Qed.

Lemma init_rejected arg h :
  well_formed h arg -> ~ accepted arg ->
  Timestep.__init__ arg h
  = inl (match arg with
         | PArray a => if decide (length (shape a) = 2%nat)
                       then IndexError else ValueError
         | _ => ValueError
         end).
Proof.
  intros Hwf Hacc. destruct arg as [|n|?|?|???|a|?|other]; try done; simpl in *.
  - apply init_negative. lia.
  - case_decide as Hdim; [|by apply init_matrix_not_2d].
    destruct (shape a) as [|r [|c [|]]] eqn:Hshape; try done.
    apply (init_matrix_narrow a r c); [done|done|].
    destruct (decide (3 <= c)%nat); [|lia].
    destruct Hacc. by exists r, c.
Qed.

Lemma accepted_or_not arg : accepted arg \/ ~ accepted arg.
Proof.
  destruct arg as [|n|?|?|???|a|?|other]; simpl; try tauto.
  - destruct (decide (0 <= n)); tauto.
  - destruct (shape a) as [|r [|c [|]]]; try (right; by intros (?&?&?&?)).
    destruct (decide (3 <= c)%nat) as [Hc|Hc].
    + left. by exists r, c.
    + right. intros (r' & c' & [= <- <-] & ?). done.
Qed.

(** X1: what [Timestep(arg)] accepts. With [arg] an integer, a Timestep or an
    array (live in the store), the constructor succeeds exactly for a
    non-negative integer, a Timestep, and a two-dimensional array with at
    least three columns. Everything else is rejected: a two-dimensional array
    with fewer than three columns with IndexError, and a negative integer, an
    array that is not two-dimensional or a value of any other type with
    ValueError. *)
Theorem constructor_accepts arg h :
  well_formed h arg ->
  ((exists ts h', Timestep.__init__ arg h = inr (ts, h')) <-> accepted arg)
  /\ (~ accepted arg ->
      Timestep.__init__ arg h
      = inl (match arg with
             | PArray a => if decide (length (shape a) = 2%nat)
                           then IndexError else ValueError
             | _ => ValueError
             end)).
Proof.
  intros Hwf. split; [|by apply init_rejected].
  split.
  - intros (ts & h' & Hinit). destruct (accepted_or_not arg) as [|Hno].
    + done.
    + rewrite (init_rejected arg h Hwf Hno) in Hinit. done.
  - intros Hacc. destruct (init_accepted arg h Hwf Hacc) as (ts & h' & H & _).
    eauto.
Qed.

Lemma constructor_accepts_witness :
  (exists ts h', Timestep.__init__ (PArray matrix_2x3) sample_heap
                 = inr (ts, h'))
  /\ Timestep.__init__ (PArray matrix_3x2) sample_heap = inl IndexError.
Proof.
  split.
  - destruct (constructor_accepts (PArray matrix_2x3) sample_heap)
      as [[_ Hacc] _]; [reflexivity|].
    apply Hacc. exists 2%nat, 3%nat. split; [reflexivity|lia].
  - destruct (constructor_accepts (PArray matrix_3x2) sample_heap)
      as [_ Hrej]; [reflexivity|].
    apply Hrej. intros (r & c & Hshape & Hc).
    injection Hshape as <- <-. lia.
Defined.

(** X2: whatever [Timestep(arg)] returns is a fully allocated Timestep: a
    two-dimensional position array with at least three columns and six
    unit-cell floats, each on a buffer of its own that did not exist before,
    neither overlapping itself; and no buffer that existed before the call is
    changed. *)
Theorem constructor_allocates arg h ts h' :
  well_formed h arg ->
  Timestep.__init__ arg h = inr (ts, h') ->
  built h ts h'.
Proof.
  intros Hwf Hinit. destruct (accepted_or_not arg) as [Hacc|Hno].
  - destruct (init_accepted arg h Hwf Hacc) as (ts0 & h0 & Hinit0 & Hbuilt).
    congruence.
  - rewrite (init_rejected arg h Hwf Hno) in Hinit. done.
Qed.

Lemma constructor_allocates_witness :
  exists ts h',
    Timestep.__init__ (PTimestep sample_frame) frame_heap = inr (ts, h')
    /\ built frame_heap ts h'.
Proof.
  eexists _, _. split; [vm_compute; reflexivity|].
  apply (constructor_allocates (PTimestep sample_frame)).
  - split; [exists 2%nat, 3%nat; split; [reflexivity|lia]|].
    repeat split; reflexivity.
  - vm_compute; reflexivity.
Defined.

(** ** The per-axis views *)

Lemma select_axis_any_store ax k a h w h' :
  select_axis ax k a h = inr (w, h') ->
  forall h0, select_axis ax k a h0 = inr (w, h0).
Proof.
  unfold select_axis.
  destruct (shape a !! ax), (strides a !! ax); try done.
  destruct (wrap_index k _); [|done]. unfold ret. by intros [= <- <-].
Qed.

Lemma init_views_inv arg h ts h' :
  Timestep.__init__ arg h = inr (ts, h') ->
  select_axis 1 0 (_pos ts) h' = inr (_x ts, h')
  /\ select_axis 1 1 (_pos ts) h' = inr (_y ts, h')
  /\ select_axis 1 2 (_pos ts) h' = inr (_z ts, h').
Proof.
  unfold Timestep.__init__. intros Hinit.
  apply bind_inv in Hinit as ([[[fr n] pos] uc] & h1 & _ & Hviews).
  apply bind_inv in Hviews as (x & hx & Hx & Hviews).
  apply bind_inv in Hviews as (y & hy & Hy & Hviews).
  apply bind_inv in Hviews as (z & hz & Hz & Hret).
  unfold ret in Hret. injection Hret as <- <-. simpl.
  pose proof (select_axis_data _ _ _ _ _ _ Hx) as [_ ->].
  pose proof (select_axis_data _ _ _ _ _ _ Hy) as [_ ->].
  pose proof (select_axis_data _ _ _ _ _ _ Hz) as [_ ->].
  done.
Qed.

(** A column view reads the column, in every store. *)
Lemma column_view a k h w :
  0 <= k ->
  select_axis 1 k a h = inr (w, h) ->
  data w = data a
  /\ forall h0 i, peek h0 w [i] = peek h0 a [i; Z.to_nat k].
Proof.
  intros Hk Hsel. split; [by apply select_axis_data in Hsel as [? _]|].
  unfold select_axis in Hsel.
  destruct (shape a) as [|r [|c shp]] eqn:Hshape; try done.
  destruct (strides a) as [|s0 [|s1 st]] eqn:Hstrides; try done.
  simpl in Hsel. unfold wrap_index, wrapped in Hsel.
  rewrite (decide_False (P := k < 0)) in Hsel by lia.
  case_decide; [|done]. unfold ret in Hsel. injection Hsel as <-.
  intros h0 i. unfold peek. simpl.
  match goal with |- context [address ?w [i]] =>
    assert (address w [i] = address a [i; Z.to_nat k]) as ->
  end; [|done].
  unfold address. simpl. rewrite Hstrides. simpl. lia.
Qed.

(** X3: in every Timestep a constructor returns, [_x], [_y] and [_z] are
    views of columns 0, 1 and 2 of [_pos]: they are on the buffer of [_pos],
    and in whatever state the store is later, element [i] of each reads the
    same value as element [(i, 0)], [(i, 1)], [(i, 2)] of [_pos]; so a write
    through one shows through the other. *)
Theorem axis_views_alias_positions arg h ts h' :
  Timestep.__init__ arg h = inr (ts, h') ->
  (data (_x ts) = data (_pos ts)
   /\ data (_y ts) = data (_pos ts)
   /\ data (_z ts) = data (_pos ts))
  /\ forall h0 i,
       peek h0 (_x ts) [i] = peek h0 (_pos ts) [i; 0%nat]
       /\ peek h0 (_y ts) [i] = peek h0 (_pos ts) [i; 1%nat]
       /\ peek h0 (_z ts) [i] = peek h0 (_pos ts) [i; 2%nat].
Proof.
  intros (Hx & Hy & Hz)%init_views_inv.
  apply column_view in Hx as [Hdx Hpx]; [|lia].
  apply column_view in Hy as [Hdy Hpy]; [|lia].
  apply column_view in Hz as [Hdz Hpz]; [|lia].
  split; [done|]. intros h0 i. by rewrite Hpx, Hpy, Hpz.
Qed.

Lemma axis_views_alias_positions_witness :
  exists ts h',
    Timestep.__init__ (PInt 2) ∅ = inr (ts, h')
    /\ (data (_x ts) = data (_pos ts)
        /\ data (_y ts) = data (_pos ts)
        /\ data (_z ts) = data (_pos ts))
    /\ forall h0 i,
         peek h0 (_x ts) [i] = peek h0 (_pos ts) [i; 0%nat]
         /\ peek h0 (_y ts) [i] = peek h0 (_pos ts) [i; 1%nat]
         /\ peek h0 (_z ts) [i] = peek h0 (_pos ts) [i; 2%nat].
Proof.
  destruct (Timestep.__init__ (PInt 2) ∅) as [e|[ts h']] eqn:Hinit;
    [by vm_compute in Hinit|].
  exists ts, h'. split; [reflexivity|].
  exact (axis_views_alias_positions (PInt 2) ∅ ts h' Hinit).
Defined.

(** X4: a Timestep adopted from a two-dimensional buffer keeps the buffer's
    shape [(r, c)] for its position array, so it satisfies the frame
    invariant (position array of shape [(numatoms, 3)]) exactly when the
    buffer is 3 x 3; for any other shape the atom count and the rows of the
    position array disagree or a row is not a 3-vector. *)
Theorem adopted_frame_iff_3x3 a r c h ts h' :
  valid h a -> shape a = [r; c] ->
  Timestep.__init__ (PArray a) h = inr (ts, h') ->
  shape (_pos ts) = [r; c]
  /\ (is_frame h' ts <-> r = 3%nat /\ c = 3%nat).
Proof.
  intros Hvalid Hshape Hinit.
  destruct (decide (3 <= c)%nat) as [Hc|Hc]; cycle 1.
  { rewrite (init_matrix_narrow a r c h Hshape Hvalid) in Hinit; [done|lia]. }
  destruct (init_accepted (PArray a) h Hvalid) as (ts0 & h0 & Hinit0 & Hbuilt).
  { by exists r, c. }
  assert (ts0 = ts /\ h0 = h') as [-> ->] by (split; congruence).
  destruct Hbuilt as ((_ & Hcell & Hvpos & Hvcell) & _).
  pose proof (init_matrix_numatoms a r c h ts h' Hshape Hinit) as Hn.
  destruct (init_matrix a r c h Hshape Hvalid Hc)
    as (vals & x & y & z & _ & Hinit1).
  assert (shape (_pos ts) = [r; c]) as Hpos.
  { rewrite Hinit in Hinit1. by injection Hinit1 as -> _. }
  split; [done|]. split.
  - intros (_ & Hframe & _). rewrite Hpos, Hn in Hframe.
    injection Hframe as Hr ->. case_decide; lia.
  - intros [-> ->]. unfold is_frame. rewrite Hn, Hpos. simpl.
    repeat split; done || lia.
Qed.

Lemma adopted_frame_iff_3x3_witness :
  exists ts h',
    Timestep.__init__ (PArray matrix_2x3) sample_heap = inr (ts, h')
    /\ shape (_pos ts) = [2%nat; 3%nat]
    /\ (is_frame h' ts <-> 2%nat = 3%nat /\ 3%nat = 3%nat).
Proof.
  destruct (Timestep.__init__ (PArray matrix_2x3) sample_heap)
    as [e|[ts h']] eqn:Hinit; [by vm_compute in Hinit|].
  exists ts, h'. split; [reflexivity|].
  apply (adopted_frame_iff_3x3 matrix_2x3 2 3 sample_heap ts h');
    [reflexivity|reflexivity|exact Hinit].
Defined.

(** ** Indexing does not write *)

Lemma elements_store o a h vals h' :
  elements o a h = inr (vals, h') -> h' = h.
Proof.
  unfold elements, bind, buffer. destruct (h !! data a); [|done]. simpl.
  destruct (mapM _ _); [|done]. simpl. unfold ret. congruence.
Qed.

Lemma traverse_store {A B} (f : A -> M B) (l : list A) h ys h' :
  (forall x h0 y h1, f x h0 = inr (y, h1) -> h1 = h0) ->
  traverse f l h = inr (ys, h') -> h' = h.
Proof.
  intros Hf. revert h ys h'. induction l as [|x l IH]; intros h ys h'; simpl.
  - unfold ret. congruence.
  - intros Ht. apply bind_inv in Ht as (y & h1 & Hy & Ht).
    apply bind_inv in Ht as (ys' & h2 & Hys & Hret).
    apply Hf in Hy as ->. apply IH in Hys as ->.
    unfold ret in Hret. congruence.
Qed.

Lemma ndarray_getitem_store a key h v h' :
  ndarray_getitem a key h = inr (v, h') ->
  (forall l, is_Some (h !! l) -> h' !! l = h !! l)
  /\ (match key with PInt _ | PSlice _ _ _ => h' = h | _ => True end)
  /\ (forall r, v = PArray r ->
        match key with
        | PInt _ | PSlice _ _ _ => data r = data a
        | _ => h !! data r = None
        end).
Proof.
  destruct key as [|i|?|?|start stop step|?|idx|?]; simpl; try done.
  - intros Hget. apply bind_inv in Hget as (w & h1 & Hsel & Hget).
    apply select_axis_data in Hsel as [Hdata ->].
    destruct (shape w).
    + apply bind_inv in Hget as (vals & h2 & Hel & Hget).
      apply elements_store in Hel as ->.
      destruct (head vals); simpl in Hget; [|done].
      unfold ret in Hget. injection Hget as <- <-.
      split; [done|]. split; [done|]. by intros r.
    + unfold ret in Hget. injection Hget as <- <-.
      split; [done|]. split; [done|]. by intros r [= <-].
  - intros Hget. apply bind_inv in Hget as (w & h1 & Hsl & Hret).
    unfold ret in Hret. injection Hret as <- <-.
    unfold slice_axis0 in Hsl.
    destruct (shape a), (strides a); try done.
    destruct (slice_indices _ _ _ _) as [[[? ?] ?]|]; [|done].
    unfold ret in Hsl. injection Hsl as <- <-.
    split; [done|]. split; [done|]. by intros r [= <-].
  - intros Hget. apply bind_inv in Hget as (w & h1 & Htake & Hret).
    unfold ret in Hret. injection Hret as <- <-.
    unfold take_rows in Htake. destruct (shape a) as [|d rest]; [done|].
    apply bind_inv in Htake as (rows & h2 & Hrows & Halloc).
    apply traverse_store in Hrows as ->; cycle 1.
    { intros i h0 y h3 Hrow. apply bind_inv in Hrow as (w0 & h4 & Hsel & Hel).
      apply select_axis_data in Hsel as [_ ->].
      by apply elements_store in Hel. }
    apply bind_inv in Halloc as (l & h3 & Hl & Hret).
    unfold alloc in Hl. injection Hl as <- <-.
    unfold ret in Hret. injection Hret as <- <-.
    split; [|split; [done|]].
    + intros l Hl. apply lookup_insert_ne. symmetry.
      by apply allocated_not_fresh.
    + intros r [= <-]. simpl. apply alloc_fresh.
Qed.

(** X5: indexing a Timestep never writes to it. Whatever [ts[key]] returns,
    for any Timestep and any store, every buffer of the store is unchanged;
    with an integer or a slice the store is left exactly as it was and an
    array result is a view on the buffer of [_pos], while an index array
    gives an array on a buffer that did not exist before. *)
Theorem getitem_never_writes ts key h v h' :
  Timestep.__getitem__ ts key h = inr (v, h') ->
  (forall l, is_Some (h !! l) -> h' !! l = h !! l)
  /\ (match key with PInt _ | PSlice _ _ _ => h' = h | _ => True end)
  /\ (forall r, v = PArray r ->
        match key with
        | PInt _ | PSlice _ _ _ => data r = data (_pos ts)
        | _ => h !! data r = None
        end).
Proof.
  intros Hget.
  destruct key as [|i|?|?|start stop step|a|idx|?]; simpl in Hget; try done.
  - case_decide; [done|].
    by apply (ndarray_getitem_store _ (PInt _)) in Hget.
  - by apply (ndarray_getitem_store _ (PSlice _ _ _)) in Hget.
  - by apply (ndarray_getitem_store _ (PIntArray _)) in Hget.
Qed.

Lemma getitem_never_writes_witness :
  exists r h',
    Timestep.__getitem__ sample_frame (PIntArray [1; 0]) frame_heap
    = inr (PArray r, h')
    /\ (forall l, is_Some (frame_heap !! l) -> h' !! l = frame_heap !! l)
    /\ frame_heap !! data r = None.
Proof.
  destruct (Timestep.__getitem__ sample_frame (PIntArray [1; 0]) frame_heap)
    as [e|[[| | | | |r| |] h']] eqn:Hget; try by vm_compute in Hget.
  exists r, h'. split; [reflexivity|].
  destruct (getitem_never_writes _ _ _ _ _ Hget) as (Hsame & _ & Hnew).
  split; [exact Hsame|]. exact (Hnew r eq_refl).
Defined.

(** ** Writing through the row of an atom *)

Lemma distinct_cells_inj a idx1 idx2 :
  distinct_cells a -> in_range idx1 (shape a) -> in_range idx2 (shape a) ->
  address a idx1 = address a idx2 -> idx1 = idx2.
Proof.
  unfold distinct_cells, cells.
  intros Hnd H1%(indices_in_range C_order) H2%(indices_in_range C_order) Heq.
  apply list_elem_of_lookup_1 in H1 as [k1 Hk1].
  apply list_elem_of_lookup_1 in H2 as [k2 Hk2].
  unfold indices in Hk1, Hk2.
  assert (k1 = k2) as ->; [|congruence].
  eapply NoDup_lookup; [exact Hnd| |]; rewrite list_lookup_fmap.
  - by rewrite Hk1.
  - by rewrite Hk2, Heq.
Qed.

Lemma row_setitem a r c s0 s1 i j v h :
  valid h a -> distinct_cells a ->
  shape a = [r; c] -> strides a = [s0; s1] -> (i < r)%nat -> (j < c)%nat ->
  let row := {| data := data a; offset := offset a + Z.of_nat i * s0;
                shape := [c]; strides := [s1] |} in
  exists h',
    ndarray_setitem row [Z.of_nat j] v h = inr (tt, h')
    /\ (forall idx, in_range idx (shape a) ->
          peek h' a idx
          = if decide (idx = [i; j]) then Some v else peek h a idx)
    /\ (forall l, l ≠ data a -> h' !! l = h !! l).
Proof.
  intros Hv Hd Hshape Hstrides Hi Hj row.
  destruct (valid_inv h a Hv) as (buf & Hbuf & _ & Hall).
  set (p := address a [i; j]).
  assert (in_range [i; j] (shape a)) as Hij
    by (rewrite Hshape; apply in_range_2; lia).
  assert (is_Some (load buf p)) as Hload by by apply Hall.
  pose proof Hload as Hin. apply in_buffer_load in Hin.
  exists (<[data a := update_at (fun _ => v) buf p]> h).
  split; [|split].
  - unfold ndarray_setitem, ndarray_update, bind, ret, buffer, select_axis.
    simpl. rewrite wrap_index_nonneg by lia. simpl. rewrite Hbuf. simpl.
    match goal with
    | |- context [address ?w []] => assert (address w [] = p) as ->
    end.
    { unfold p, address. simpl. rewrite Hstrides, Nat2Z.id. simpl. lia. }
    by rewrite Hin.
  - intros idx Hidx. unfold peek. rewrite lookup_insert_eq, Hbuf. simpl.
    destruct (Hall idx Hidx) as [x Hx].
    unfold in_buffer in Hin. apply bool_decide_eq_true in Hin.
    pose proof Hx as Hx'. apply mk_is_Some, in_buffer_load in Hx'.
    unfold in_buffer in Hx'. apply bool_decide_eq_true in Hx'.
    unfold load, update_at in *.
    rewrite !decide_True in * by lia.
    case_decide as Heq.
    + subst idx. fold p. rewrite list_lookup_alter_eq.
      by destruct Hload as [y ->].
    + rewrite (decide_True (P := 0 <= address a idx)) by lia.
      rewrite list_lookup_alter_ne; [done|].
      intros Hp. apply Heq. apply (distinct_cells_inj a); try done.
      fold p. lia.
  - intros l Hl. by rewrite lookup_insert_ne.
Qed.

(** X6: the row that [ts[i]] returns is a live view of the positions. For a
    frame whose position array does not overlap itself (every constructor
    gives one) and an index in [-n, n), [ts[i]] returns a row without
    changing the store, and [ts[i][j] = v] then makes position
    [(i mod n, j)] read [v], leaves every other position as it was and
    touches no other buffer. *)
Theorem atom_row_writes_through ts h i j v :
  is_frame h ts -> distinct_cells (_pos ts) ->
  - numatoms ts <= i < numatoms ts -> (j < 3)%nat ->
  exists row h',
    Timestep.__getitem__ ts (PInt i) h = inr (PArray row, h)
    /\ ndarray_setitem row [Z.of_nat j] v h = inr (tt, h')
    /\ (forall idx, in_range idx (shape (_pos ts)) ->
          peek h' (_pos ts) idx
          = if decide (idx = [Z.to_nat (i mod numatoms ts); j])
            then Some v else peek h (_pos ts) idx)
    /\ (forall l, l ≠ data (_pos ts) -> h' !! l = h !! l).
Proof.
  intros (Hn & Hshape & _ & Hvalid & _) Hd Hi Hj.
  destruct (valid_strides_2 _ _ _ _ Hvalid Hshape) as (s0 & s1 & Hs).
  set (k := i mod numatoms ts).
  assert (0 <= k < numatoms ts) as Hk by (apply Z.mod_pos_bound; lia).
  assert ((if decide (i < 0) then numatoms ts + i else i) = k) as Hwrap.
  { unfold k. case_decide.
    - rewrite <- (Z.mod_small (numatoms ts + i) (numatoms ts)) by lia.
      rewrite Z.add_comm.
      by rewrite <- (Z_mod_plus_full i 1 (numatoms ts)), Z.mul_1_l.
    - by rewrite Z.mod_small by lia. }
  destruct (row_setitem (_pos ts) _ _ s0 s1 (Z.to_nat k) j v h
              Hvalid Hd Hshape Hs) as (h' & Hset & Hpeek & Hrest);
    [lia|lia|].
  eexists _, h'. split; [|split; [exact Hset|by split]].
  unfold Timestep.__getitem__. rewrite Hwrap.
  rewrite decide_False by lia. unfold ndarray_getitem.
  rewrite (bind_ok _ _ h _ h (select_row _ _ _ s0 s1 k h Hshape Hs ltac:(lia))).
  simpl. by rewrite Z2Nat.id by lia.
Qed.

Lemma atom_row_writes_through_witness :
  exists row h',
    Timestep.__getitem__ sample_frame (PInt (-1)) frame_heap
    = inr (PArray row, frame_heap)
    /\ ndarray_setitem row [2] (Qc_of_Z 7) frame_heap = inr (tt, h')
    /\ peek h' (_pos sample_frame) [1; 2]%nat = Some (Qc_of_Z 7)
    /\ peek h' (_pos sample_frame) [0; 2]%nat = Some (Qc_of_Z 30).
Proof.
  assert (is_frame frame_heap sample_frame) as Hframe
    by (repeat split; try reflexivity; simpl; lia).
  destruct (atom_row_writes_through sample_frame frame_heap (-1) 2
              (Qc_of_Z 7) Hframe (packed_distinct _ _ _))
    as (row & h' & Hget & Hset & Hpeek & _); [simpl; lia|lia|].
  exists row, h'. split; [exact Hget|]. split; [exact Hset|]. split.
  - rewrite Hpeek by (apply in_range_2; lia). reflexivity.
  - rewrite Hpeek by (apply in_range_2; lia). reflexivity.
Defined.

(** ** The array that [dimensions] returns *)

(** X7: [dimensions] hands out a detached array. For every Timestep a
    constructor gives, the array it returns is on a buffer that did not exist
    before, no existing buffer is changed by the call, and whatever is later
    written through the returned array (an element, a scaling, all six
    values) changes no buffer that existed before the call: [ts.dimensions]
    called again still returns the values it returned the first time. *)
Theorem dimensions_is_detached ts h :
  constructed h ts ->
  exists d h' vals,
    Timestep.dimensions ts h = inr (d, h')
    /\ values d h' = inr (vals, h')
    /\ h !! data d = None
    /\ (forall l, is_Some (h !! l) -> h' !! l = h !! l)
    /\ forall w h'',
         apply_write d w h' = inr (tt, h'') ->
         (forall l, is_Some (h !! l) -> h'' !! l = h !! l)
         /\ exists d2 h3,
              Timestep.dimensions ts h'' = inr (d2, h3)
              /\ values d2 h3 = inr (vals, h3).
Proof.
  intros (_ & Hshape & _ & Hvalid).
  destruct (elements_spec C_order h _ Hvalid) as (vals & Hvals & Hlen & _).
  rewrite Hshape in Hlen.
  destruct vals as [|A [|al [|B [|be [|ga [|C [|]]]]]]]; try done.
  destruct (dimensions_spec ts h A al B be ga C Hvals) as [Hdim Hread].
  set (l := fresh (dom h)) in *.
  set (h' := <[l := [A; B; C; al; be; ga]]> h) in *.
  assert (forall l0, is_Some (h !! l0) -> h' !! l0 = h !! l0) as Hold.
  { intros l0 Hl0. apply lookup_insert_ne. symmetry.
    by apply allocated_not_fresh. }
  eexists _, h', _. split; [exact Hdim|]. split; [exact Hread|].
  split; [apply alloc_fresh|]. split; [exact Hold|].
  intros w h'' Hw.
  assert (forall l0, is_Some (h !! l0) -> h'' !! l0 = h !! l0) as Hold'.
  { intros l0 Hl0. rewrite <- (Hold l0 Hl0).
    apply (apply_write_frame _ _ _ _ Hw). simpl.
    by apply allocated_not_fresh. }
  split; [exact Hold'|].
  assert (values (_unitcell ts) h'' = inr ([A; al; B; be; ga; C], h''))
    as Hvals'.
  { apply (elements_agree C_order h); [|done].
    by apply Hold', valid_allocated. }
  destruct (dimensions_spec ts h'' A al B be ga C Hvals') as [Hdim' Hread'].
  eexists _, _. split; [exact Hdim'|exact Hread'].
Qed.

Lemma dimensions_is_detached_witness :
  exists d h' h'' d2 h3,
    Timestep.dimensions sample_frame frame_heap = inr (d, h')
    /\ apply_write d (SetItem [0] (Qc_of_Z 99)) h' = inr (tt, h'')
    /\ values d h'' = inr (Qc_of_Z <$> [99; 3; 6; 2; 4; 5], h'')
    /\ Timestep.dimensions sample_frame h'' = inr (d2, h3)
    /\ values d2 h3 = inr (Qc_of_Z <$> [1; 3; 6; 2; 4; 5], h3).
Proof.
  assert (constructed frame_heap sample_frame) as Hts.
  { split; [exists 2%nat, 3%nat; split; [reflexivity|lia]|].
    repeat split; reflexivity. }
  destruct (dimensions_is_detached sample_frame frame_heap Hts)
    as (d & h' & vals & Hdim & Hvals & _ & _ & Hwrite).
  assert (Timestep.dimensions sample_frame frame_heap
          = inr (packed 3%positive C_order [6%nat],
                 <[3%positive := Qc_of_Z <$> [1; 3; 6; 2; 4; 5]]> frame_heap))
    as Hrun by reflexivity.
  rewrite Hrun in Hdim. injection Hdim as <- <-.
  assert (vals = Qc_of_Z <$> [1; 3; 6; 2; 4; 5]) as ->.
  { apply (f_equal (fun r : exn + (list Qc * heap) =>
                      match r with inr (v, _) => v | inl _ => [] end))
      in Hvals.
    symmetry. exact Hvals. }
  destruct (apply_write (packed 3%positive C_order [6%nat])
              (SetItem [0] (Qc_of_Z 99))
              (<[3%positive := Qc_of_Z <$> [1; 3; 6; 2; 4; 5]]> frame_heap))
    as [e|[[] h'']] eqn:Hw; [by vm_compute in Hw|].
  destruct (Hwrite _ _ Hw) as (_ & d2 & h3 & Hdim2 & Hvals2).
  eexists _, _, h'', d2, h3.
  split; [exact Hrun|]. split; [exact Hw|].
  split; [|split; [exact Hdim2|exact Hvals2]].
  apply (f_equal (fun r : exn + (unit * heap) =>
                    match r with inr (_, h0) => Some h0 | inl _ => None end))
    in Hw.
  injection Hw as <-. reflexivity.
Defined.

(** ** Indexing a Timestep adopted from a matrix *)

Lemma getitem_row ts r c h i :
  valid h (_pos ts) -> shape (_pos ts) = [r; c] -> (0 < c)%nat ->
  0 <= i < numatoms ts ->
  if decide (i < Z.of_nat r)
  then exists row,
         Timestep.__getitem__ ts (PInt i) h = inr (PArray row, h)
         /\ data row = data (_pos ts) /\ shape row = [c]
  else Timestep.__getitem__ ts (PInt i) h = inl IndexError.
Proof.
  intros Hvalid Hshape Hc Hi.
  destruct (valid_strides_2 _ _ _ _ Hvalid Hshape) as (s0 & s1 & Hs).
  unfold Timestep.__getitem__.
  rewrite (decide_False (P := i < 0)) by lia.
  rewrite (decide_False (P := i < 0 \/ i >= numatoms ts)) by lia.
  unfold ndarray_getitem. case_decide as Hr.
  - rewrite (bind_ok _ _ h _ h
               (select_row _ _ _ s0 s1 i h Hshape Hs ltac:(lia))).
    simpl. destruct c; [lia|]. eexists. split; [reflexivity|done].
  - apply bind_raise. unfold select_axis. rewrite Hshape, Hs. simpl.
    by rewrite wrap_index_None by lia.
Qed.

(** X8: a Timestep adopted from an [(r, c)] matrix checks an atom index
    against its atom count ([r] if [r = 3], else [c]) but reads row [i] of
    the [(r, c)] position array: for [0 <= i < len(ts)], [ts[i]] is a view
    of [c] values on the position buffer when [i < r], and an IndexError
    raised by the array, although the index is below [len(ts)], when
    [r <= i]. *)
Theorem adopted_matrix_rows a r c h ts h' i :
  valid h a -> shape a = [r; c] ->
  Timestep.__init__ (PArray a) h = inr (ts, h') ->
  0 <= i < Timestep.__len__ ts ->
  if decide (i < Z.of_nat r)
  then exists row,
         Timestep.__getitem__ ts (PInt i) h' = inr (PArray row, h')
         /\ data row = data (_pos ts) /\ shape row = [c]
  else Timestep.__getitem__ ts (PInt i) h' = inl IndexError.
Proof.
  intros Hvalid Hshape Hinit Hi.
  destruct (decide (3 <= c)%nat) as [Hc|Hc]; cycle 1.
  { rewrite (init_matrix_narrow a r c h Hshape Hvalid) in Hinit; [done|lia]. }
  destruct (init_accepted (PArray a) h Hvalid) as (ts0 & h0 & Hinit0 & Hbuilt).
  { by exists r, c. }
  assert (ts0 = ts /\ h0 = h') as [-> ->] by (split; congruence).
  destruct Hbuilt as ((_ & _ & Hvpos & _) & _).
  destruct (init_matrix a r c h Hshape Hvalid Hc)
    as (vals & x & y & z & _ & Hinit1).
  assert (shape (_pos ts) = [r; c]) as Hpos.
  { rewrite Hinit in Hinit1. by injection Hinit1 as -> _. }
  apply getitem_row; [done|done|lia|done].
Qed.

Lemma adopted_matrix_rows_witness :
  exists ts h',
    Timestep.__init__ (PArray matrix_2x3) sample_heap = inr (ts, h')
    /\ Timestep.__len__ ts = 3
    /\ Timestep.__getitem__ ts (PInt 2) h' = inl IndexError.
Proof.
  destruct (Timestep.__init__ (PArray matrix_2x3) sample_heap)
    as [e|[ts h']] eqn:Hinit; [by vm_compute in Hinit|].
  exists ts, h'. split; [reflexivity|].
  assert (Timestep.__len__ ts = 3) as Hlen.
  { unfold Timestep.__len__.
    by rewrite (init_matrix_numatoms matrix_2x3 2 3 sample_heap ts h'). }
  split; [exact Hlen|].
  apply (adopted_matrix_rows matrix_2x3 2 3 sample_heap ts h' 2);
    [reflexivity|reflexivity|exact Hinit|lia].
Defined.

(** ** Reading a copy *)

Lemma values_agree h a h' a' :
  valid h a -> valid h' a' -> shape a' = shape a ->
  (forall idx, in_range idx (shape a) -> peek h' a' idx = peek h a idx) ->
  exists vals, values a h = inr (vals, h) /\ values a' h' = inr (vals, h').
Proof.
  intros Hv Hv' Hshape Hpeek.
  destruct (elements_spec C_order h a Hv) as (vals & Hel & Hlen & Hvals).
  destruct (elements_spec C_order h' a' Hv') as (vals' & Hel' & Hlen' & Hvals').
  rewrite Hshape in Hlen', Hvals'.
  exists vals. split; [exact Hel|].
  assert (vals' = vals) as <-; [|exact Hel'].
  apply list_eq. intros k.
  destruct (indices C_order (shape a) !! k) as [idx|] eqn:Hk.
  - rewrite (Hvals k idx Hk), (Hvals' k idx Hk). apply Hpeek.
    apply (indices_in_range C_order). by eapply list_elem_of_lookup_2.
  - apply lookup_ge_None in Hk. rewrite indices_length in Hk.
    rewrite !lookup_ge_None_2; [done|lia..].
Qed.

Lemma getitem_wrap ts i h :
  - numatoms ts <= i < numatoms ts ->
  0 <= i mod numatoms ts < numatoms ts
  /\ Timestep.__getitem__ ts (PInt i) h
     = ndarray_getitem (_pos ts) (PInt (i mod numatoms ts)) h.
Proof.
  intros Hi. split; [apply Z.mod_pos_bound; lia|].
  assert ((if decide (i < 0) then numatoms ts + i else i)
          = i mod numatoms ts) as Hwrap.
  { case_decide.
    - rewrite <- (Z.mod_small (numatoms ts + i) (numatoms ts)) by lia.
      rewrite Z.add_comm.
      by rewrite <- (Z_mod_plus_full i 1 (numatoms ts)), Z.mul_1_l.
    - by rewrite Z.mod_small by lia. }
  unfold Timestep.__getitem__. rewrite Hwrap.
  rewrite decide_False; [done|].
  pose proof (Z.mod_pos_bound i (numatoms ts)). lia.
Qed.

(** X9: a copy reads as the original. For a frame [ts], the Timestep that
    [ts.copy()] returns has the frame number of [ts], its [dimensions] holds
    the same six values as [ts.dimensions], and for every index [i] in
    [-n, n) the row [copy[i]] holds the same values as [ts[i]]. *)
Theorem copy_reads_the_same ts h ts' h' :
  is_frame h ts ->
  Timestep.copy ts h = inr (ts', h') ->
  frame ts' = frame ts
  /\ (exists d hd d' hd' vals,
        Timestep.dimensions ts h = inr (d, hd)
        /\ Timestep.dimensions ts' h' = inr (d', hd')
        /\ values d hd = inr (vals, hd)
        /\ values d' hd' = inr (vals, hd'))
  /\ (forall i, - numatoms ts <= i < numatoms ts ->
        exists row row' xyz,
          Timestep.__getitem__ ts (PInt i) h = inr (PArray row, h)
          /\ Timestep.__getitem__ ts' (PInt i) h' = inr (PArray row', h')
          /\ values row h = inr (xyz, h)
          /\ values row' h' = inr (xyz, h')).
Proof.
  intros Hframe Hcopy.
  pose proof Hframe as (Hn & Hshape & Hcell & Hvpos & Hvcell).
  destruct (init_copy ts _ _ h Hshape ltac:(lia) Hvpos Hvcell)
    as (o1 & vals1 & o2 & vals2 & x & y & z & Hinit & Hvpos' & Hvcell'
        & Hppos & Hpcell).
  unfold Timestep.copy, Timestep.__deepcopy__ in Hcopy.
  rewrite Hcopy in Hinit. injection Hinit as -> ->.
  set (l1 := fresh (dom h)) in *. set (h1 := <[l1 := vals1]> h) in *.
  set (l2 := fresh (dom h1)) in *. set (h2 := <[l2 := vals2]> h1) in *.
  set (ts' := {| frame := frame ts; numatoms := numatoms ts;
                 _pos := packed l2 o2 [Z.to_nat (numatoms ts); 3%nat];
                 _unitcell := packed l1 o1 (shape (_unitcell ts));
                 _x := x; _y := y; _z := z |}).
  assert (is_frame h2 ts') as Hframe'.
  { unfold is_frame. simpl. by rewrite Hcell in *. }
  split; [done|]. split.
  - destruct (values_agree h (_unitcell ts) h2 (_unitcell ts') Hvcell Hvcell')
      as (vals & Hvals & Hvals'); [done|done|].
    pose proof (elements_spec C_order h _ Hvcell) as (vals0 & Hv0 & Hlen & _).
    unfold values in Hvals. rewrite Hvals in Hv0. injection Hv0 as <-.
    rewrite Hcell in Hlen.
    destruct vals as [|A [|al [|B [|be [|ga [|C [|]]]]]]]; try done.
    destruct (dimensions_spec ts h A al B be ga C Hvals) as [Hdim Hread].
    destruct (dimensions_spec ts' h2 A al B be ga C Hvals') as [Hdim' Hread'].
    eexists _, _, _, _, _. eauto.
  - intros i Hi.
    destruct (getitem_wrap ts i h Hi) as [Hk ->].
    destruct (getitem_wrap ts' i h2 Hi) as [_ ->].
    change (numatoms ts') with (numatoms ts).
    set (k := i mod numatoms ts) in *.
    destruct (getitem_int_in_range ts h k Hframe Hk)
      as (row & x0 & y0 & z0 & Hget & _ & _ & Hvals & Hx & Hy & Hz).
    destruct (getitem_int_in_range ts' h2 k Hframe' Hk)
      as (row' & x1 & y1 & z1 & Hget' & _ & _ & Hvals' & Hx' & Hy' & Hz').
    simpl in Hx', Hy', Hz'.
    rewrite Hppos in Hx', Hy', Hz' by (apply in_range_2; lia).
    assert (x1 = x0) as -> by congruence.
    assert (y1 = y0) as -> by congruence.
    assert (z1 = z0) as -> by congruence.
    eexists row, row', _. eauto.
Qed.

Lemma copy_reads_the_same_witness :
  exists ts' h' row row',
    Timestep.copy sample_frame frame_heap = inr (ts', h')
    /\ frame ts' = frame sample_frame
    /\ Timestep.__getitem__ sample_frame (PInt (-1)) frame_heap
       = inr (PArray row, frame_heap)
    /\ Timestep.__getitem__ ts' (PInt (-1)) h' = inr (PArray row', h')
    /\ values row frame_heap = inr (Qc_of_Z <$> [11; 21; 31], frame_heap)
    /\ values row' h' = inr (Qc_of_Z <$> [11; 21; 31], h').
Proof.
  assert (is_frame frame_heap sample_frame) as Hframe
    by (repeat split; try reflexivity; simpl; lia).
  destruct (Timestep.copy sample_frame frame_heap)
    as [e|[ts' h']] eqn:Hcopy; [by vm_compute in Hcopy|].
  destruct (copy_reads_the_same sample_frame frame_heap ts' h' Hframe Hcopy)
    as (Hfr & _ & Hrows).
  destruct (Hrows (-1)) as (row & row' & xyz & Hget & Hget' & Hvals & Hvals');
    [simpl; lia|].
  exists ts', h', row, row'. split; [reflexivity|]. split; [exact Hfr|].
  split; [exact Hget|]. split; [exact Hget'|].
  assert (xyz = Qc_of_Z <$> [11; 21; 31]) as ->; [|by split].
  assert (Timestep.__getitem__ sample_frame (PInt (-1)) frame_heap
          = inr (PArray {| data := 1%positive; offset := 1;
                           shape := [3%nat]; strides := [2] |}, frame_heap))
    as Hrun by reflexivity.
  rewrite Hrun in Hget. injection Hget as <-.
  apply (f_equal (fun r : exn + (list Qc * heap) =>
                    match r with inr (v, _) => v | inl _ => [] end)) in Hvals.
  symmetry. exact Hvals.
Defined.

(** ** Iterating a Timestep adopted from a matrix *)

Lemma iterTS_list_rows ts r c h :
  valid h (_pos ts) -> shape (_pos ts) = [r; c] -> (0 < c)%nat ->
  forall (m : nat) (i : Z) (fuel : nat),
    0 <= i -> i + Z.of_nat m = numatoms ts -> (m < fuel)%nat ->
    if decide (numatoms ts <= Z.of_nat r)
    then exists items,
           Timestep.iterTS_list fuel
             {| Timestep.gi_self := ts; Timestep.gi_i := i |} h
           = inr (Some items, h)
           /\ length items = m
    else i <= Z.of_nat r ->
         Timestep.iterTS_list fuel
           {| Timestep.gi_self := ts; Timestep.gi_i := i |} h
         = inl IndexError.
Proof.
  intros Hvalid Hshape Hc.
  induction m as [|m IH]; intros i [|fuel] Hi Hm Hfuel; try lia.
  - case_decide as Hr; [|lia]. exists []. cbn [Timestep.iterTS_list].
    by rewrite (bind_ok _ _ _ _ _ (next_stops ts i h ltac:(lia))).
  - pose proof (getitem_row ts r c h i Hvalid Hshape Hc ltac:(lia)) as Hget.
    specialize (IH (i + 1) fuel ltac:(lia) ltac:(lia) ltac:(lia)).
    cbn [Timestep.iterTS_list].
    destruct (decide (i < Z.of_nat r)) as [Hlt|Hge].
    + destruct Hget as (row & Hget & _).
      rewrite (bind_ok _ _ _ _ _ (next_yields ts i h _ ltac:(lia) Hget)).
      case_decide as Hr.
      * destruct IH as (items & Hitems & Hlen).
        exists (PArray row :: items).
        rewrite (bind_ok _ _ _ _ _ Hitems). split; [done|]. simpl. lia.
      * intros _. apply bind_raise, IH. lia.
    + rewrite decide_False by lia. intros Hle. apply bind_raise.
      unfold Timestep.iterTS_next. cbn [Timestep.gi_self Timestep.gi_i].
      rewrite decide_True by lia. by apply bind_raise.
Qed.

(** X14: iterating a Timestep adopted from an [(r, c)] matrix. The generator
    counts [len(ts)] atoms ([r] if [r = 3], else [c]) but reads rows of the
    [(r, c)] position array: when [len(ts) <= r], [list(ts)] returns
    [len(ts)] rows and leaves the store as it was; otherwise, that is when
    the matrix has fewer rows than columns and not three rows, [list(ts)]
    raises IndexError. *)
Theorem iterate_adopted_matrix a r c h ts h' (fuel : nat) :
  valid h a -> shape a = [r; c] ->
  Timestep.__init__ (PArray a) h = inr (ts, h') ->
  (Z.to_nat (Timestep.__len__ ts) < fuel)%nat ->
  if decide (Timestep.__len__ ts <= Z.of_nat r)
  then exists items,
         Timestep.iterTS_list fuel (Timestep.__iter__ ts) h'
         = inr (Some items, h')
         /\ Z.of_nat (length items) = Timestep.__len__ ts
  else Timestep.iterTS_list fuel (Timestep.__iter__ ts) h' = inl IndexError.
Proof.
  intros Hvalid Hshape Hinit Hfuel.
  destruct (decide (3 <= c)%nat) as [Hc|Hc]; cycle 1.
  { rewrite (init_matrix_narrow a r c h Hshape Hvalid) in Hinit; [done|lia]. }
  destruct (init_accepted (PArray a) h Hvalid) as (ts0 & h0 & Hinit0 & Hbuilt).
  { by exists r, c. }
  assert (ts0 = ts /\ h0 = h') as [-> ->] by (split; congruence).
  destruct Hbuilt as ((_ & _ & Hvpos & _) & _).
  destruct (init_matrix a r c h Hshape Hvalid Hc)
    as (vals & x & y & z & _ & Hinit1).
  assert (shape (_pos ts) = [r; c]) as Hpos.
  { rewrite Hinit in Hinit1. by injection Hinit1 as -> _. }
  pose proof (init_matrix_numatoms a r c h ts h' Hshape Hinit) as Hn.
  unfold Timestep.__len__, Timestep.__iter__ in *.
  pose proof (iterTS_list_rows ts r c h' Hvpos Hpos ltac:(lia)
                (Z.to_nat (numatoms ts)) 0 fuel ltac:(lia) ltac:(lia) Hfuel)
    as Hlist.
  case_decide as Hr.
  - destruct Hlist as (items & Hitems & Hlen). exists items.
    split; [done|]. lia.
  - apply Hlist. lia.
Qed.

Lemma iterate_adopted_matrix_witness :
  exists ts h',
    Timestep.__init__ (PArray matrix_2x3) sample_heap = inr (ts, h')
    /\ Timestep.iterTS_list 4 (Timestep.__iter__ ts) h' = inl IndexError.
Proof.
  destruct (Timestep.__init__ (PArray matrix_2x3) sample_heap)
    as [e|[ts h']] eqn:Hinit; [by vm_compute in Hinit|].
  exists ts, h'. split; [reflexivity|].
  pose proof (init_matrix_numatoms matrix_2x3 2 3 sample_heap ts h'
                eq_refl Hinit) as Hn.
  pose proof (iterate_adopted_matrix matrix_2x3 2 3 sample_heap ts h' 4
                eq_refl eq_refl Hinit) as Hlist.
  unfold Timestep.__len__ in Hlist. rewrite Hn in Hlist.
  apply Hlist. simpl. lia.
Defined.
